(** * V3Undriven: unused / undriven signal detection

    A shallow embedding of [src/V3Undriven.cpp] (Verilator's lint pass that
    reports signals that are never driven, never used, or only partly so)
    together with the properties of its specification.

    Layout:
    - [Int32]      : the C++ [int] arithmetic the pass relies on;
    - [Ast]        : the part of the design tree the visitor inspects;
    - [Entry]      : [class UndrivenVarEntry];
    - [Visitor]    : [class UndrivenVisitor] and [V3Undriven::undrivenAll];
    - the notions the statements use (the traversal as a sequence of
      accesses, positions in the tree, the invariant of the visitor);
    - properties: the range text, the decision table, the bit-marking
      loops, the traversal, and the pass on whole trees;
    - further properties: the range text in general, where accesses come
      from, which warnings a signal can get, runs without undefined
      behaviour, and the flags as the sum of the accesses. *)

From Stdlib Require Import DecimalString.
From stdpp Require Import base option list gmap strings.

Local Open Scope string_scope.
Local Open Scope Z_scope.

(** ** Machine integers *)

Module Int32.

(** C++ [int] on the supported targets: 32 bits, two's complement.  The
    operations below wrap around; conversions from [unsigned]/[size_t]
    to [int] reduce modulo [2^32] into the signed range. *)
Definition wrap (z : Z) : Z := (z + 2 ^ 31) `mod` 2 ^ 32 - 2 ^ 31.

Definition add (a b : Z) : Z := wrap (a + b).
Definition mul (a b : Z) : Z := wrap (a * b).

End Int32.

(** ** The design tree, as far as the pass looks at it *)

Module Ast.

(** [V3ErrorCode], restricted to the two codes the pass emits. *)
Inductive V3ErrorCode : Set := UNUSED | UNDRIVEN.

(** [AstVar]: a signal declaration.  [V3Ast.h] is not part of the
    sources, so every accessor the pass calls on an [AstVar*] (and on its
    [basicp()]) is a field here.  [addr] stands for the node's identity:
    two declarations are the same node iff the records are equal. *)
Record AstVar : Set := mkAstVar {
  addr : positive;
  prettyName : string;
  width : Z;
  isParam : bool;
  isGenVar : bool;
  isInput : bool;
  isOutput : bool;
  isSigPublic : bool;
  isSigUserRWPublic : bool;
  isSigUserRdPublic : bool;
  (* m_varp->basicp()->lsb(): the declared index of the least significant
     bit; ->littleEndian(): the range is written low index first, as in
     [0:7] (ascending), rather than [7:0] (descending) *)
  basic_lsb : Z;
  basic_littleEndian : bool
}.

(** [V3Number], as seen through [isFourState()] and [toUInt()]; the
    latter is a [uint32_t], i.e. a value in [0, 2^32). *)
Record V3Number : Set := mkNum {
  isFourState : bool;
  toUInt : Z
}.

(** Node kinds the visitor distinguishes.  [AstNode] is every other
    kind (netlist, module, assignment, operators, ...); all a visitor can
    do with it is iterate its children. *)
#[local] Unset Elimination Schemes.
Inductive AstNode : Set :=
| Var (varp : AstVar) (children : list AstNode)
| ArraySel (children : list AstNode)
| Sel (selWidth : Z) (fromp lsbp widthp : AstNode)
| VarRef (varp : AstVar) (lvalue : bool)
| CoverDecl (children : list AstNode)
| CoverInc (children : list AstNode)
| CoverToggle (children : list AstNode)
| TraceDecl (children : list AstNode)
| TraceInc (children : list AstNode)
| Const (num : V3Number)
| Node (children : list AstNode).
#[local] Set Elimination Schemes.

(** Induction on a tree, with the children of a node covered by
    [Forall]. *)
Section Induction.

Variable P : AstNode → Prop.
Hypothesis HVar : ∀ v cs, Forall P cs → P (Var v cs).
Hypothesis HArraySel : ∀ cs, Forall P cs → P (ArraySel cs).
Hypothesis HSel : ∀ w f l wd, P f → P l → P wd → P (Sel w f l wd).
Hypothesis HVarRef : ∀ v lv, P (VarRef v lv).
Hypothesis HCoverDecl : ∀ cs, Forall P cs → P (CoverDecl cs).
Hypothesis HCoverInc : ∀ cs, Forall P cs → P (CoverInc cs).
Hypothesis HCoverToggle : ∀ cs, Forall P cs → P (CoverToggle cs).
Hypothesis HTraceDecl : ∀ cs, Forall P cs → P (TraceDecl cs).
Hypothesis HTraceInc : ∀ cs, Forall P cs → P (TraceInc cs).
Hypothesis HConst : ∀ num, P (Const num).
Hypothesis HNode : ∀ cs, Forall P cs → P (Node cs).

Fixpoint AstNode_induction (n : AstNode) : P n :=
  let all :=
    fix all (cs : list AstNode) : Forall P cs :=
      match cs with
      | [] => List.Forall_nil P
      | c :: cs' => @List.Forall_cons _ P c cs' (AstNode_induction c) (all cs')
      end in
  match n with
  | Var v cs => HVar v cs (all cs)
  | ArraySel cs => HArraySel cs (all cs)
  | Sel w f l wd => HSel w f l wd (AstNode_induction f) (AstNode_induction l) (AstNode_induction wd)
  | VarRef v lv => HVarRef v lv
  | CoverDecl cs => HCoverDecl cs (all cs)
  | CoverInc cs => HCoverInc cs (all cs)
  | CoverToggle cs => HCoverToggle cs (all cs)
  | TraceDecl cs => HTraceDecl cs (all cs)
  | TraceInc cs => HTraceInc cs (all cs)
  | Const num => HConst num
  | Node cs => HNode cs (all cs)
  end.

End Induction.

(** A diagnostic handed to the warning sink by [nodep->v3warn(code, msg)]. *)
Record Diag : Set := mkDiag {
  code : V3ErrorCode;
  nodep : AstVar;
  msg : string
}.

#[global] Instance V3ErrorCode_eq_dec : EqDecision V3ErrorCode.
Proof. solve_decision. Defined.

#[global] Instance AstVar_eq_dec : EqDecision AstVar.
Proof. solve_decision. Defined.

#[global] Instance Diag_eq_dec : EqDecision Diag.
Proof. solve_decision. Defined.

(** Declarations are countable, so they can key a [gmap]. *)
Definition AstVar_to_tuple (v : AstVar) :=
  (addr v, prettyName v, width v,
   (isParam v, isGenVar v, isInput v, isOutput v),
   (isSigPublic v, isSigUserRWPublic v, isSigUserRdPublic v),
   basic_lsb v, basic_littleEndian v).

Definition AstVar_of_tuple
    (t : positive * string * Z * (bool * bool * bool * bool)
         * (bool * bool * bool) * Z * bool) : AstVar :=
  let '(a, n, w, (p, g, i, o), (sp, srw, srd), l, le) := t in
  mkAstVar a n w p g i o sp srw srd l le.

#[global] Instance AstVar_countable : Countable AstVar.
Proof.
  apply (inj_countable' AstVar_to_tuple AstVar_of_tuple).
  by intros [].
Defined.

End Ast.

Import Ast.

(** ** [class UndrivenVarEntry] *)

Module Entry.

Record UndrivenVarEntry : Set := mkEntry {
  m_varp : AstVar;          (* Variable this tracks *)
  m_usedWhole : bool;       (* True if whole vector used *)
  m_drivenWhole : bool;     (* True if whole vector driven *)
  m_flags : list bool       (* Used/Driven on each subbit *)
}.

Definition FLAG_USED : Z := 0.
Definition FLAG_DRIVEN : Z := 1.
Definition FLAGS_PER_BIT : Z := 2.

(** The constructor.  [resize] takes a [size_t]: a negative [int]
    product converts to a length no vector can have and [resize]
    throws; that is the [None] below. *)
Definition new (varp : AstVar) : option UndrivenVarEntry :=
  let n := Int32.mul (width varp) FLAGS_PER_BIT in
  if n <? 0 then None
  else Some {| m_varp := varp;
               m_usedWhole := false;
               m_drivenWhole := false;
               m_flags := replicate (Z.to_nat n) false |}.

(** [(int)m_flags.size()] *)
Definition flags_size (e : UndrivenVarEntry) : Z :=
  Int32.wrap (Z.of_nat (length (m_flags e))).

Definition bitNumOk (e : UndrivenVarEntry) (bit : Z) : bool :=
  Int32.mul bit FLAGS_PER_BIT <? flags_size e.

(** Reading [m_flags[i]].  Every read of the class is at an index
    [bit*FLAGS_PER_BIT + k] with [bit < size/FLAGS_PER_BIT], hence inside
    the vector; the default is never observed. *)
Definition flag_at (e : UndrivenVarEntry) (i : nat) : bool :=
  default false (m_flags e !! i).

Definition usedFlag (e : UndrivenVarEntry) (bit : Z) : bool :=
  flag_at e (Z.to_nat (bit * FLAGS_PER_BIT + FLAG_USED)).
Definition drivenFlag (e : UndrivenVarEntry) (bit : Z) : bool :=
  flag_at e (Z.to_nat (bit * FLAGS_PER_BIT + FLAG_DRIVEN)).

(** [m_flags.size()/FLAGS_PER_BIT]: the number of bits tracked. *)
Definition nbits (e : UndrivenVarEntry) : nat := (length (m_flags e) / 2)%nat.

(** Writing [m_flags[i] = true] for an [int] index [i].  [operator[]]
    does no bounds check: an index outside the vector is undefined
    behaviour, rendered as [None]. *)
Definition set_flag (e : UndrivenVarEntry) (i : Z) : option UndrivenVarEntry :=
  if (0 <=? i) && (i <? Z.of_nat (length (m_flags e))) then
    Some {| m_varp := m_varp e;
            m_usedWhole := m_usedWhole e;
            m_drivenWhole := m_drivenWhole e;
            m_flags := <[Z.to_nat i := true]> (m_flags e) |}
  else None.

Definition usedWhole (e : UndrivenVarEntry) : UndrivenVarEntry :=
  {| m_varp := m_varp e; m_usedWhole := true;
     m_drivenWhole := m_drivenWhole e; m_flags := m_flags e |}.

Definition drivenWhole (e : UndrivenVarEntry) : UndrivenVarEntry :=
  {| m_varp := m_varp e; m_usedWhole := m_usedWhole e;
     m_drivenWhole := true; m_flags := m_flags e |}.

(** One iteration of the loops of [usedBit] / [drivenBit], which differ
    only in the flag they set. *)
Definition markBit (flag : Z) (bit i : Z) (e : UndrivenVarEntry)
    : option UndrivenVarEntry :=
  if bitNumOk e (Int32.add bit i) then
    set_flag e (Int32.add (Int32.mul (Int32.add bit i) FLAGS_PER_BIT) flag)
  else Some e.

(** [for (int i = i0; i < i0 + n; i++)] *)
Fixpoint markBits (flag : Z) (bit : Z) (n : nat) (i : Z) (e : UndrivenVarEntry)
    : option UndrivenVarEntry :=
  match n with
  | O => Some e
  | S n' => e' ← markBit flag bit i e; markBits flag bit n' (i + 1) e'
  end.

Definition usedBit (bit width : Z) (e : UndrivenVarEntry) : option UndrivenVarEntry :=
  markBits FLAG_USED bit (Z.to_nat width) 0 e.

Definition drivenBit (bit width : Z) (e : UndrivenVarEntry) : option UndrivenVarEntry :=
  markBits FLAG_DRIVEN bit (Z.to_nat width) 0 e.

(** [cvtToStr] of an [int]: decimal, with a leading minus sign. *)
Definition cvtToStr (z : Z) : string := NilZero.string_of_int (Z.to_int z).

(** State of the loop of [bitNames]: the text so far, [prev], [msb]. *)
Definition bitNames_body (e : UndrivenVarEntry) (index : Z) (bit : Z)
    (st : string * bool * Z) : string * bool * Z :=
  let '(bits, prev, msb) := st in
  if (0 <=? bit) && negb (flag_at e (Z.to_nat (bit * FLAGS_PER_BIT + index))) then
    if negb prev then (bits, true, bit) else (bits, prev, msb)
  else if prev then
    let off := basic_lsb (m_varp e) in
    let lsb := Int32.add bit 1 in
    let bits := if String.eqb bits "" then bits else bits +:+ "," in
    let bits :=
      if lsb =? msb then bits +:+ cvtToStr (Int32.add lsb off)
      else if basic_littleEndian (m_varp e) then
        bits +:+ (cvtToStr (Int32.add lsb off) +:+ ":" +:+ cvtToStr (Int32.add msb off))
      else
        bits +:+ (cvtToStr (Int32.add msb off) +:+ ":" +:+ cvtToStr (Int32.add lsb off)) in
    (bits, false, msb)
  else (bits, prev, msb).

(** [bitNames_loop k] runs the iterations [bit = k-1, ..., 0, -1]. *)
Fixpoint bitNames_loop (e : UndrivenVarEntry) (index : Z) (k : nat)
    (st : string * bool * Z) : string * bool * Z :=
  match k with
  | O => bitNames_body e index (-1) st
  | S j => bitNames_loop e index j (bitNames_body e index (Z.of_nat j) st)
  end.

Definition bitNames (e : UndrivenVarEntry) (index : Z) : string :=
  let '(bits, _, _) := bitNames_loop e index (nbits e) ("", false, 0) in
  "[" +:+ bits +:+ "]".

(** The first loop of [reportViolations]: (allU, allD, anyU, anyD). *)
Definition combine_step (e : UndrivenVarEntry)
    (acc : bool * bool * bool * bool) (bit : nat) : bool * bool * bool * bool :=
  let '(allU, allD, anyU, anyD) := acc in
  (allU && usedFlag e (Z.of_nat bit), allD && drivenFlag e (Z.of_nat bit),
   anyU || usedFlag e (Z.of_nat bit), anyD || drivenFlag e (Z.of_nat bit)).

Definition combine (e : UndrivenVarEntry) : bool * bool * bool * bool :=
  fold_left (combine_step e) (seq 0 (nbits e))
            (true, true, m_usedWhole e, m_drivenWhole e).

(** [if (allU) m_usedWhole = true; if (allD) m_drivenWhole = true;] *)
Definition promote (e : UndrivenVarEntry) : UndrivenVarEntry :=
  let '(allU, allD, _, _) := combine e in
  {| m_varp := m_varp e;
     m_usedWhole := if allU then true else m_usedWhole e;
     m_drivenWhole := if allD then true else m_drivenWhole e;
     m_flags := m_flags e |}.

(** [nodep->v3warn(code, msg)]: the warning goes to the sink, which is
    not part of the pass (nor is its filtering by code or by pragma). *)
Definition v3warn (nodep : AstVar) (c : V3ErrorCode) (m : string) : Diag :=
  {| code := c; nodep := nodep; msg := m |}.

(** The "Test results" part of [reportViolations], on the promoted
    entry and the two [any] flags. *)
Definition testResults (e : UndrivenVarEntry) (anyU anyD : bool) : list Diag :=
  let nodep := m_varp e in
  if m_usedWhole e && m_drivenWhole e then []
  else if negb anyU && negb anyD then
    [v3warn nodep UNDRIVEN ("Signal is not driven, nor used: " +:+ prettyName nodep)]
  else
    (if negb (m_usedWhole e) && negb anyU then
       [v3warn nodep UNUSED ("Signal is not used: " +:+ prettyName nodep)]
     else if negb (m_usedWhole e) then
       [v3warn nodep UNUSED ("Bits of signal are not used: " +:+ prettyName nodep
                             +:+ bitNames e FLAG_USED)]
     else [])
    ++
    (if negb (m_drivenWhole e) && negb anyD then
       [v3warn nodep UNDRIVEN ("Signal is not driven: " +:+ prettyName nodep)]
     else if negb (m_drivenWhole e) then
       [v3warn nodep UNDRIVEN ("Bits of signal are not driven: " +:+ prettyName nodep
                               +:+ bitNames e FLAG_DRIVEN)]
     else []).

(** [reportViolations]: the entry as the call leaves it, and the
    warnings in the order they are issued. *)
Definition reportViolations (e : UndrivenVarEntry) : UndrivenVarEntry * list Diag :=
  let nodep := m_varp e in
  if negb (isParam nodep) && negb (isGenVar nodep) then
    let '(_, _, anyU, anyD) := combine e in
    let e' := promote e in
    (e', testResults e' anyU anyD)
  else (e, []).

End Entry.

Import Entry.

(** ** [class UndrivenVisitor] and [V3Undriven::undrivenAll] *)

Module Visitor.

(** The visitor's state.  [user1p] is the annotation slot of the
    [AstVar] nodes: it lives on the tree and outlives the visitor.  An
    [UndrivenVarEntry*] is the position of the entry in [m_entryps], where
    every entry is pushed as soon as it is allocated. *)
Record UndrivenVisitor : Type := mkVisitor {
  user1p : gmap AstVar nat;            (* AstVar::user1p, absent = 0 *)
  m_entryps : list UndrivenVarEntry    (* Nodes to delete when we are finished *)
}.

Definition getEntryp (nodep : AstVar) (st : UndrivenVisitor)
    : option (nat * UndrivenVisitor) :=
  match user1p st !! nodep with
  | None =>
      entry ← new nodep;
      let entryp := length (m_entryps st) in
      Some (entryp, {| user1p := <[nodep := entryp]> (user1p st);
                       m_entryps := m_entryps st ++ [entry] |})
  | Some entryp => Some (entryp, st)
  end.

(** [entryp->method(...)]: dereferencing a pointer that is not a live
    entry is undefined. *)
Definition call (entryp : nat) (method : UndrivenVarEntry → option UndrivenVarEntry)
    (st : UndrivenVisitor) : option UndrivenVisitor :=
  e ← m_entryps st !! entryp;
  e' ← method e;
  Some {| user1p := user1p st; m_entryps := <[entryp := e']> (m_entryps st) |}.

Definition castVarRef (n : AstNode) : option (AstVar * bool) :=
  match n with VarRef varp lvalue => Some (varp, lvalue) | _ => None end.

Definition castConst (n : AstNode) : option V3Number :=
  match n with Const num => Some num | _ => None end.

(** [visit] of an [AstVar], before it iterates the children. *)
Definition visitVar (nodep : AstVar) (st : UndrivenVisitor) : option UndrivenVisitor :=
  '(entryp, st) ← getEntryp nodep st;
  st ← (if isInput nodep || isSigPublic nodep || isSigUserRWPublic nodep
        then call entryp (λ e, Some (drivenWhole e)) st else Some st);
  if isOutput nodep || isSigPublic nodep || isSigUserRWPublic nodep
     || isSigUserRdPublic nodep
  then call entryp (λ e, Some (usedWhole e)) st else Some st.

(** [visit] of an [AstVarRef]. *)
Definition visitVarRef (varp : AstVar) (lvalue : bool) (st : UndrivenVisitor)
    : option UndrivenVisitor :=
  '(entryp, st) ← getEntryp varp st;
  if lvalue then call entryp (λ e, Some (drivenWhole e)) st
  else call entryp (λ e, Some (usedWhole e)) st.

(** The first branch of [visit] of an [AstSel]; [lsb] is already the [int]. *)
Definition visitSelConst (varp : AstVar) (lvalue : bool) (lsb width : Z)
    (st : UndrivenVisitor) : option UndrivenVisitor :=
  '(entryp, st) ← getEntryp varp st;
  if lvalue then call entryp (drivenBit lsb width) st
  else call entryp (usedBit lsb width) st.

Fixpoint visit (nodep : AstNode) (st : UndrivenVisitor) {struct nodep}
    : option UndrivenVisitor :=
  let iterateChildren :=
    fix iter (cs : list AstNode) (st : UndrivenVisitor) {struct cs} :=
      match cs with
      | [] => Some st
      | c :: cs' => st' ← visit c st; iter cs' st'
      end in
  match nodep with
  | Var varp cs => st ← visitVar varp st; iterateChildren cs st
  | ArraySel cs => iterateChildren cs st
  | Sel w fromp lsbp widthp =>
      match castVarRef fromp, castConst lsbp with
      | Some (varp, lvalue), Some num =>
          if negb (isFourState num) then
            (* int lsb = constp->toUInt(); *)
            visitSelConst varp lvalue (Int32.wrap (toUInt num)) w st
          else
            st ← visit fromp st; st ← visit lsbp st; visit widthp st
      | _, _ =>
          st ← visit fromp st; st ← visit lsbp st; visit widthp st
      end
  | VarRef varp lvalue => visitVarRef varp lvalue st
  | CoverDecl _ | CoverInc _ | CoverToggle _ | TraceDecl _ | TraceInc _ => Some st
  | Const _ => Some st
  | Node cs => iterateChildren cs st
  end.

(** [iterateChildren] over a node's list of children. *)
Definition iterateChildren : list AstNode → UndrivenVisitor → option UndrivenVisitor :=
  fix iter (cs : list AstNode) (st : UndrivenVisitor) {struct cs} :=
    match cs with
    | [] => Some st
    | c :: cs' => st' ← visit c st; iter cs' st'
    end.

(** [AstNode::user1ClearTree()] *)
Definition user1ClearTree (u : gmap AstVar nat) : gmap AstVar nat := ∅.

(** The destructor: report every entry, in creation order. *)
Definition reportAll (entries : list UndrivenVarEntry) : list Diag :=
  flat_map (λ e, (reportViolations e).2) entries.

(** [undrivenAll]: construct the visitor on the netlist, destroy it.
    [u] is what earlier passes (or an earlier run) left in the [user1p]
    slots; the result is what this run leaves there and the warnings it
    issued. *)
Definition undrivenAll (u : gmap AstVar nat) (nodep : AstNode)
    : option (gmap AstVar nat * list Diag) :=
  let st0 := {| user1p := user1ClearTree u; m_entryps := [] |} in
  st ← visit nodep st0;
  Some (user1p st, reportAll (m_entryps st)).

End Visitor.

Import Visitor.

(** * Notions used in the statements *)

(** What the first loop of [reportViolations] computes, in closed form. *)
Definition allUsed (e : UndrivenVarEntry) : bool :=
  forallb (λ b, usedFlag e (Z.of_nat b)) (seq 0 (nbits e)).
Definition allDriven (e : UndrivenVarEntry) : bool :=
  forallb (λ b, drivenFlag e (Z.of_nat b)) (seq 0 (nbits e)).
Definition anyUsed (e : UndrivenVarEntry) : bool :=
  m_usedWhole e || existsb (λ b, usedFlag e (Z.of_nat b)) (seq 0 (nbits e)).
Definition anyDriven (e : UndrivenVarEntry) : bool :=
  m_drivenWhole e || existsb (λ b, drivenFlag e (Z.of_nat b)) (seq 0 (nbits e)).

(** The loop state of [bitNames] "has seen a qualifying bit": a run is
    open, or one has already been written. *)
Definition seen (st : string * bool * Z) : Prop :=
  st.1.2 = true ∨ st.1.1 ≠ "".

(** Two entries agree on bit [b] for the flag kind [index]. *)
Definition agree_at (e1 e2 : UndrivenVarEntry) (index : Z) (b : nat) : Prop :=
  flag_at e1 (Z.to_nat (Z.of_nat b * FLAGS_PER_BIT + index)) =
  flag_at e2 (Z.to_nat (Z.of_nat b * FLAGS_PER_BIT + index)).

(** Sample declarations and nodes. *)
Module Examples.

(** An internal signal: no port direction, not public, not a parameter. *)
Definition wire (a : positive) (name : string) (w lsb : Z) (littleEndian : bool)
    : AstVar :=
  mkAstVar a name w false false false false false false false lsb littleEndian.

(** A two-state constant. *)
Definition const (n : Z) : AstNode := Const (mkNum false n).

(** [wire [7:0] x] and [wire [0:7] y]. *)
Definition x8 : AstVar := wire 1 "top.x" 8 0 false.
Definition y8 : AstVar := wire 2 "top.y" 8 0 true.

(** A declaration of no bits at all. *)
Definition z0 : AstVar := wire 3 "top.z" 0 0 false.

(** A one-bit read of [x8] at the constant index [32'hFFFF_FFFF]. *)
Definition read_x8_at_minus_one : AstNode :=
  Node [Var x8 []; Sel 1 (VarRef x8 false) (const 4294967295) (const 1)].

(** [v] is declared, its bits 3 to 0 are assigned through one constant
    select, and it is read as a whole. *)
Definition low_nibble_driven (v : AstVar) : AstNode :=
  Node [Var v [];
        Node [Sel 4 (VarRef v true) (const 0) (const 4); Const (mkNum false 5)];
        Node [VarRef v false]].

(** [v] is declared, its bit 0 is assigned through a constant select,
    and it is read as a whole. *)
Definition bit0_driven (v : AstVar) : AstNode :=
  Node [Var v [];
        Node [Sel 1 (VarRef v true) (const 0) (const 1); Const (mkNum false 1)];
        Node [VarRef v false]].

(** [wire b], one bit. *)
Definition b1 : AstVar := wire 7 "top.b" 1 0 false.

(** [x8] is declared, and read by a coverage point only. *)
Definition covered_x8 : AstNode :=
  Node [Var x8 []; CoverInc [VarRef x8 false]].

(** [input [7:0] i], read by a coverage point only. *)
Definition i8 : AstVar :=
  mkAstVar 6 "top.i" 8 false false true false false false false 0 false.
Definition covered_i8 : AstNode :=
  Node [Var i8 []; CoverInc [VarRef i8 false]].

(** [wire [7:0] mem [0:3]], read at an index that is no constant (a
    call, say, with no signal below it). *)
Definition mem : AstVar := wire 8 "top.mem" 8 0 false.
Definition array_read : AstNode :=
  Node [Var mem []; Node [ArraySel [VarRef mem false; Node []]]].

(** The entry of [x8] as its constructor leaves it. *)
Definition x8_fresh : UndrivenVarEntry := mkEntry x8 false false (replicate 16 false).

(** An 8-bit entry read as a whole and driven in the bits 0 to 3 (what
    [drivenBit 0 4] and [usedWhole] leave). *)
Definition low4_driven (v : AstVar) : UndrivenVarEntry :=
  mkEntry v true false
    [false; true; false; true; false; true; false; true;
     false; false; false; false; false; false; false; false].

(** [wire [9:0] d] and [wire [0:9] a]. *)
Definition d10 : AstVar := wire 4 "top.d" 10 0 false.
Definition a10 : AstVar := wire 5 "top.a" 10 0 true.

(** A 10-bit entry where exactly the bits 0 to 6 have been used (what
    [usedBit 0 7] leaves). *)
Definition low7_used (v : AstVar) : UndrivenVarEntry :=
  mkEntry v false false
    [true; false; true; false; true; false; true; false; true; false;
     true; false; true; false; false; false; false; false; false; false].

End Examples.

(** The class invariant of [UndrivenVarEntry]: two flags for each of [W]
    bits, and a size that fits an [int]. *)
Definition entry_ok (W : nat) (e : UndrivenVarEntry) : Prop :=
  length (m_flags e) = (2 * W)%nat ∧ Z.of_nat (2 * W) < 2 ^ 31.

(** Position [j] of [m_flags] holds the flag of kind [flag] of a bit in
    [lo, hi) that the signal has. *)
Definition marked (flag lo hi : Z) (W : nat) (j : nat) : bool :=
  bool_decide (Z.of_nat j `mod` 2 = flag ∧
               lo <= Z.of_nat j `div` 2 < hi ∧
               Z.of_nat j `div` 2 < Z.of_nat W).

(** ** The traversal as a sequence of accesses *)

(** The calls by which [visit] reaches the entries: the declaration rule,
    the generic reference rule, the constant bit-select rule. *)
Inductive Access : Set :=
| ADecl (v : AstVar)
| AWhole (v : AstVar) (lvalue : bool)
| ABits (v : AstVar) (lvalue : bool) (lsb w : Z).

Definition access (a : Access) (st : UndrivenVisitor) : option UndrivenVisitor :=
  match a with
  | ADecl v => visitVar v st
  | AWhole v lvalue => visitVarRef v lvalue st
  | ABits v lvalue lsb w => visitSelConst v lvalue lsb w st
  end.

Fixpoint run (l : list Access) (st : UndrivenVisitor) : option UndrivenVisitor :=
  match l with
  | [] => Some st
  | a :: l' => st' ← access a st; run l' st'
  end.

(** The accesses of a traversal, in order. *)
Fixpoint accesses (nodep : AstNode) : list Access :=
  let children :=
    fix go (cs : list AstNode) : list Access :=
      match cs with
      | [] => []
      | c :: cs' => (accesses c ++ go cs')%list
      end in
  match nodep with
  | Var varp cs => ADecl varp :: children cs
  | ArraySel cs => children cs
  | Sel w fromp lsbp widthp =>
      match castVarRef fromp, castConst lsbp with
      | Some (varp, lvalue), Some num =>
          if negb (isFourState num) then
            [ABits varp lvalue (Int32.wrap (toUInt num)) w]
          else (accesses fromp ++ accesses lsbp ++ accesses widthp)%list
      | _, _ => (accesses fromp ++ accesses lsbp ++ accesses widthp)%list
      end
  | VarRef varp lvalue => [AWhole varp lvalue]
  | CoverDecl _ | CoverInc _ | CoverToggle _ | TraceDecl _ | TraceInc _ => []
  | Const _ => []
  | Node cs => children cs
  end.

Definition accesses_list : list AstNode → list Access :=
  fix go (cs : list AstNode) : list Access :=
    match cs with
    | [] => []
    | c :: cs' => (accesses c ++ go cs')%list
    end.

(** The visitor as its constructor leaves it before the traversal. *)
Definition init : UndrivenVisitor := {| user1p := ∅; m_entryps := [] |}.

(** ** Positions in the tree *)

(** The children [visit] descends into. *)
Definition iterated (nodep : AstNode) : list AstNode :=
  match nodep with
  | Var _ cs | ArraySel cs | Node cs => cs
  | Sel _ fromp lsbp widthp =>
      match castVarRef fromp, castConst lsbp with
      | Some _, Some num =>
          if negb (isFourState num) then [] else [fromp; lsbp; widthp]
      | _, _ => [fromp; lsbp; widthp]
      end
  | _ => []
  end.

(** [visited t n]: the traversal of [t] calls [visit] on [n]. *)
Inductive visited : AstNode → AstNode → Prop :=
| visited_here n : visited n n
| visited_below t c n : In c (iterated t) → visited c n → visited t n.

(** All operands of a node, whether or not the visitor looks at them. *)
Definition operands (nodep : AstNode) : list AstNode :=
  match nodep with
  | Var _ cs | ArraySel cs | Node cs
  | CoverDecl cs | CoverInc cs | CoverToggle cs | TraceDecl cs | TraceInc cs => cs
  | Sel _ fromp lsbp widthp => [fromp; lsbp; widthp]
  | VarRef _ _ | Const _ => []
  end.

(** Coverage and trace nodes. *)
Definition instrumentation (nodep : AstNode) : bool :=
  match nodep with
  | CoverDecl _ | CoverInc _ | CoverToggle _ | TraceDecl _ | TraceInc _ => true
  | _ => false
  end.

(** [outside t n]: [n] occurs in [t] and none of the nodes above it is a
    coverage or trace node. *)
Inductive outside : AstNode → AstNode → Prop :=
| outside_here n : outside n n
| outside_below t c n :
    instrumentation t = false → In c (operands t) → outside c n → outside t n.

(** A signal all of whose references sit inside coverage or trace nodes. *)
Definition instrumentation_only (v : AstVar) (t : AstNode) : Prop :=
  ∀ lvalue, ¬ outside t (VarRef v lvalue).

(** ** What a declaration says by itself *)

Definition ext_driven (v : AstVar) : bool :=
  isInput v || isSigPublic v || isSigUserRWPublic v.

Definition ext_used (v : AstVar) : bool :=
  isOutput v || isSigPublic v || isSigUserRWPublic v || isSigUserRdPublic v.

(** The entry of a declaration no reference has touched; [declared] tells
    whether [visit] has been at the declaration itself. *)
Definition decl_entry (v : AstVar) (declared : bool) : UndrivenVarEntry :=
  {| m_varp := v;
     m_usedWhole := declared && ext_used v;
     m_drivenWhole := declared && ext_driven v;
     m_flags := replicate (Z.to_nat (Int32.mul (width v) FLAGS_PER_BIT)) false |}.

(** The warnings issued on one declaration. *)
Definition warnings_on (v : AstVar) (ds : list Diag) : list Diag :=
  filter (λ d, nodep d = v) ds.

(** ** Invariant of the visitor's state *)

(** Every annotated declaration points at its own entry, and every entry
    is the one its declaration points at. *)
Definition wf (st : UndrivenVisitor) : Prop :=
  (∀ v p, user1p st !! v = Some p →
          ∃ e, m_entryps st !! p = Some e ∧ m_varp e = v) ∧
  (∀ p e, m_entryps st !! p = Some e → user1p st !! m_varp e = Some p).

(** Entries only gain flags. *)
Definition entry_le (e e' : UndrivenVarEntry) : Prop :=
  m_varp e' = m_varp e ∧
  (m_usedWhole e = true → m_usedWhole e' = true) ∧
  (m_drivenWhole e = true → m_drivenWhole e' = true) ∧
  length (m_flags e') = length (m_flags e) ∧
  (∀ j, flag_at e j = true → flag_at e' j = true).

(** [st'] extends [st]: annotations and entries stay where they are, and
    the entries only gain flags. *)
Definition extends (st st' : UndrivenVisitor) : Prop :=
  (∀ v p, user1p st !! v = Some p → user1p st' !! v = Some p) ∧
  (∀ p e, m_entryps st !! p = Some e →
          ∃ e', m_entryps st' !! p = Some e' ∧ entry_le e e').

(** ** An access, on the entry it reaches *)

Definition var_of (a : Access) : AstVar :=
  match a with ADecl v | AWhole v _ | ABits v _ _ _ => v end.

(** What an access does to the entry of its declaration. *)
Definition method (a : Access) (e : UndrivenVarEntry) : option UndrivenVarEntry :=
  match a with
  | ADecl v =>
      let e := if ext_driven v then drivenWhole e else e in
      Some (if ext_used v then usedWhole e else e)
  | AWhole _ lvalue => Some (if lvalue then drivenWhole e else usedWhole e)
  | ABits _ lvalue lsb w => if lvalue then drivenBit lsb w e else usedBit lsb w e
  end.

(** The entries before the method runs: a missing entry is created at
    the end. *)
Definition with_entry (a : Access) (st : UndrivenVisitor) (e : UndrivenVarEntry)
    : list UndrivenVarEntry :=
  match user1p st !! var_of a with
  | Some _ => m_entryps st
  | None => m_entryps st ++ [e]
  end.

(** The methods of a sequence of accesses, one after the other. *)
Fixpoint methods (l : list Access) (e : UndrivenVarEntry) : option UndrivenVarEntry :=
  match l with
  | [] => Some e
  | a :: l' => e' ← method a e; methods l' e'
  end.

(** The state in which one declaration has been met. *)
Definition single (v : AstVar) (e : UndrivenVarEntry) : UndrivenVisitor :=
  {| user1p := {[ v := 0%nat ]}; m_entryps := [e] |}.

(** An access that leaves the entry of [v] alone, but for the
    declaration rule. *)
Definition untouched (v : AstVar) (a : Access) : Prop :=
  match a with
  | ADecl _ => True
  | AWhole v' _ | ABits v' _ _ _ => v' ≠ v
  end.

Definition declares (v : AstVar) (a : Access) : bool :=
  match a with
  | ADecl v' => bool_decide (v' = v)
  | _ => false
  end.

(** The state of a signal that no reference outside the declaration
    rule has touched; [declared] as in [decl_entry]. *)
Definition pristine (v : AstVar) (declared : bool) (st : UndrivenVisitor) : Prop :=
  (declared = true → is_Some (user1p st !! v)) ∧
  (∀ p e, user1p st !! v = Some p → m_entryps st !! p = Some e →
          e = decl_entry v declared ∧ is_Some (new v)).

(** What [reportViolations] says of a signal known by its declaration
    alone. *)
Definition decl_report (v : AstVar) : list Diag :=
  if ext_used v then
    if ext_driven v then []
    else [v3warn v UNDRIVEN ("Signal is not driven: " +:+ prettyName v)]
  else
    if ext_driven v then [v3warn v UNUSED ("Signal is not used: " +:+ prettyName v)]
    else [v3warn v UNDRIVEN ("Signal is not driven, nor used: " +:+ prettyName v)].

(** ** Notions for the further properties *)

(** The flag of kind [index] of the bit [b]. *)
Definition flag_of (e : UndrivenVarEntry) (index : Z) (b : nat) : bool :=
  flag_at e (Z.to_nat (Z.of_nat b * FLAGS_PER_BIT + index)).

(** The text of one run of bits [lo..hi] (local indices) of a
    declaration, as [bitNames] writes it. *)
Definition run_text (v : AstVar) (lo hi : Z) : string :=
  let off := basic_lsb v in
  if lo =? hi then cvtToStr (Int32.add lo off)
  else if basic_littleEndian v then
    cvtToStr (Int32.add lo off) +:+ ":" +:+ cvtToStr (Int32.add hi off)
  else
    cvtToStr (Int32.add hi off) +:+ ":" +:+ cvtToStr (Int32.add lo off).

(** The tree with what is below its coverage and trace nodes removed. *)
Fixpoint prune (nodep : AstNode) : AstNode :=
  let children :=
    fix go (cs : list AstNode) : list AstNode :=
      match cs with
      | [] => []
      | c :: cs' => prune c :: go cs'
      end in
  match nodep with
  | Var varp cs => Var varp (children cs)
  | ArraySel cs => ArraySel (children cs)
  | Sel w fromp lsbp widthp => Sel w (prune fromp) (prune lsbp) (prune widthp)
  | VarRef varp lvalue => VarRef varp lvalue
  | CoverDecl _ => CoverDecl []
  | CoverInc _ => CoverInc []
  | CoverToggle _ => CoverToggle []
  | TraceDecl _ => TraceDecl []
  | TraceInc _ => TraceInc []
  | Const num => Const num
  | Node cs => Node (children cs)
  end.

Definition prune_list : list AstNode → list AstNode :=
  fix go (cs : list AstNode) : list AstNode :=
    match cs with
    | [] => []
    | c :: cs' => prune c :: go cs'
    end.

(** An access whose numbers stay clear of [int] overflow: a declaration
    of fewer than [2^30] bits, and a bit range from bit 0 upwards that
    ends below [2^30]. *)
Definition access_ok (a : Access) : Prop :=
  0 <= width (var_of a) < 2 ^ 30 ∧
  match a with
  | ABits _ _ lsb w => 0 <= lsb ∧ 0 <= w ∧ lsb + w <= 2 ^ 30
  | _ => True
  end.

(** The same, for the nodes of a tree the traversal reaches. *)
Definition safe_tree (t : AstNode) : Prop :=
  (∀ v cs, visited t (Var v cs) → 0 <= width v < 2 ^ 30) ∧
  (∀ v lvalue, visited t (VarRef v lvalue) → 0 <= width v < 2 ^ 30) ∧
  (∀ w v lvalue num widthp,
     visited t (Sel w (VarRef v lvalue) (Const num) widthp) →
     isFourState num = false →
     0 <= width v < 2 ^ 30 ∧ 0 <= toUInt num ∧ 0 <= w ∧ toUInt num + w <= 2 ^ 30).

(** Every entry has the size its declaration asks for. *)
Definition entries_ok (st : UndrivenVisitor) : Prop :=
  ∀ p e, m_entryps st !! p = Some e →
         entry_ok (Z.to_nat (width (m_varp e))) e.

(** The select takes the precise rule: a plain reference selected at a
    two-state constant. *)
Definition precise (fromp lsbp : AstNode) : bool :=
  match castVarRef fromp, castConst lsbp with
  | Some _, Some num => negb (isFourState num)
  | _, _ => false
  end.

(** The one code a whole reference leaves possible for the warnings on
    its signal. *)
Definition other_side (lvalue : bool) : V3ErrorCode :=
  if lvalue then UNUSED else UNDRIVEN.

(** Where an access comes from: the node of the tree whose rule made it. *)
Definition origin (t : AstNode) (a : Access) : Prop :=
  match a with
  | ADecl v => ∃ cs, visited t (Var v cs)
  | AWhole v lvalue => visited t (VarRef v lvalue)
  | ABits v lvalue lsb w =>
      ∃ num widthp,
        visited t (Sel w (VarRef v lvalue) (Const num) widthp) ∧
        isFourState num = false ∧ lsb = Int32.wrap (toUInt num)
  end.

(** The traversal of [t] meets the declaration [v]: at its declaration
    node, at a reference, or as the base of a precise select. *)
Definition met (t : AstNode) (v : AstVar) : Prop :=
  (∃ cs, visited t (Var v cs)) ∨
  (∃ lvalue, visited t (VarRef v lvalue)) ∨
  (∃ w lvalue num widthp,
     visited t (Sel w (VarRef v lvalue) (Const num) widthp) ∧
     isFourState num = false).

(** More sample trees. *)
Module Samples.

(** [x8] is declared and read at an index with unknown bits. *)
Definition read_x8_at_x : AstNode :=
  Node [Var Examples.x8 [];
        Node [Sel 1 (VarRef Examples.x8 false) (Const (mkNum true 0))
                (Examples.const 1)]].

(** [parameter [7:0] p], declared and never referenced. *)
Definition p8 : AstVar :=
  mkAstVar 10 "top.p" 8 true false false false false false false 0 false.
Definition only_p8 : AstNode := Node [Var p8 []].

(** [Examples.low_nibble_driven Examples.x8] with the read before the
    assignment. *)
Definition low_nibble_swapped : AstNode :=
  Node [Var Examples.x8 [];
        Node [VarRef Examples.x8 false];
        Node [Sel 4 (VarRef Examples.x8 true) (Examples.const 0) (Examples.const 4);
              Const (mkNum false 5)]].

(** The one warning of [Examples.low_nibble_driven Examples.x8]. *)
Definition x8_bits_undriven : Diag :=
  {| code := UNDRIVEN; nodep := Examples.x8;
     msg := "Bits of signal are not driven: top.x[7:4]" |}.

(** The one warning of [Examples.covered_i8] and of [read_x8_at_x]. *)
Definition i8_unused : Diag :=
  {| code := UNUSED; nodep := Examples.i8; msg := "Signal is not used: top.i" |}.
Definition x8_undriven : Diag :=
  {| code := UNDRIVEN; nodep := Examples.x8; msg := "Signal is not driven: top.x" |}.

End Samples.

(** The declarations of [l] that are not in [seen], each once, in the
    order of their first occurrence. *)
Fixpoint first_met (seen : list AstVar) (l : list AstVar) : list AstVar :=
  match l with
  | [] => []
  | v :: l' =>
      if decide (v ∈ seen) then first_met seen l'
      else v :: first_met (v :: seen) l'
  end.

(** What an access contributes to the entry of its declaration. *)
Definition used_by (a : Access) : bool :=
  match a with
  | ADecl v => ext_used v
  | AWhole _ lvalue => negb lvalue
  | ABits _ _ _ _ => false
  end.

Definition driven_by (a : Access) : bool :=
  match a with
  | ADecl v => ext_driven v
  | AWhole _ lvalue => lvalue
  | ABits _ _ _ _ => false
  end.

Definition bit_by (j : nat) (a : Access) : bool :=
  match a with
  | ABits v lvalue lsb w =>
      marked (if lvalue then FLAG_DRIVEN else FLAG_USED) lsb (lsb + w)
             (Z.to_nat (width v)) j
  | _ => false
  end.

(** Some access of [l] to the declaration [v] contributes [f]. *)
Definition some_on (v : AstVar) (f : Access → bool) (l : list Access) : bool :=
  existsb (λ a, bool_decide (var_of a = v) && f a) l.

(** The entry that tracks [v], and the entry the next access to [v]
    starts from: the tracked one, or a new one. *)
Definition entry_of (st : UndrivenVisitor) (v : AstVar) : option UndrivenVarEntry :=
  p ← user1p st !! v; m_entryps st !! p.

Definition start (st : UndrivenVisitor) (v : AstVar) : UndrivenVarEntry :=
  default (decl_entry v false) (entry_of st v).

(** * Properties *)

(** ** Strings *)

Section Strings.

Lemma append_nil_l (t : string) : "" +:+ t = t.
Proof. reflexivity. Qed.

Lemma append_cons_l (c : Ascii.ascii) (s t : string) :
  String c s +:+ t = String c (s +:+ t).
Proof. reflexivity. Qed.

Lemma append_nonempty_r (s t : string) : t ≠ "" → s +:+ t ≠ "".
Proof. destruct s, t; done. Qed.

Lemma append_nonempty_l (s t : string) : s ≠ "" → s +:+ t ≠ "".
Proof. destruct s; done. Qed.

Lemma append_inv_head (s t1 t2 : string) : s +:+ t1 = s +:+ t2 → t1 = t2.
Proof.
  induction s as [|c s IH]; [done|].
  rewrite !append_cons_l. intros [= H]. auto.
Qed.

Lemma bracket_empty (bits : string) : "[" +:+ bits +:+ "]" = "[]" → bits = "".
Proof.
  rewrite append_cons_l, append_nil_l.
  destruct bits as [|c bits]; [done|].
  rewrite append_cons_l. intros [= _ H]. by destruct bits.
Qed.

Lemma cvtToStr_nonempty (z : Z) : cvtToStr z ≠ "".
Proof.
  unfold cvtToStr. destruct (Z.to_int z) as [u|u]; simpl; [|done].
  by destruct u.
Qed.

End Strings.

(** ** The combine loop and the promotion *)

Section Combine.

Variable e : UndrivenVarEntry.

Lemma combine_fold (l : list nat) (allU allD anyU anyD : bool) :
  fold_left (combine_step e) l (allU, allD, anyU, anyD) =
  (allU && forallb (λ b, usedFlag e (Z.of_nat b)) l,
   allD && forallb (λ b, drivenFlag e (Z.of_nat b)) l,
   anyU || existsb (λ b, usedFlag e (Z.of_nat b)) l,
   anyD || existsb (λ b, drivenFlag e (Z.of_nat b)) l).
Proof.
  revert allU allD anyU anyD.
  induction l as [|b l IH]; intros; simpl.
  - by rewrite !andb_true_r, !orb_false_r.
  - rewrite IH. by rewrite !andb_assoc, !orb_assoc.
Qed.

Lemma combine_eq : combine e = (allUsed e, allDriven e, anyUsed e, anyDriven e).
Proof. unfold combine. by rewrite combine_fold. Qed.

Lemma promote_eq :
  promote e = {| m_varp := m_varp e;
                 m_usedWhole := allUsed e || m_usedWhole e;
                 m_drivenWhole := allDriven e || m_drivenWhole e;
                 m_flags := m_flags e |}.
Proof.
  unfold promote. rewrite combine_eq.
  by destruct (allUsed e), (allDriven e).
Qed.

Lemma reportViolations_eq :
  reportViolations e =
  if negb (isParam (m_varp e)) && negb (isGenVar (m_varp e))
  then (promote e, testResults (promote e) (anyUsed e) (anyDriven e))
  else (e, []).
Proof. unfold reportViolations. by rewrite combine_eq. Qed.

Lemma forallb_false {A} (f : A → bool) (l : list A) :
  forallb f l = false → ∃ x, In x l ∧ f x = false.
Proof.
  induction l as [|a l IH]; simpl; [done|].
  destruct (f a) eqn:Ha; simpl.
  - intros H. destruct (IH H) as (x & ? & ?). eauto.
  - eauto.
Qed.

Lemma allUsed_false :
  allUsed e = false → ∃ b, (b < nbits e)%nat ∧ usedFlag e (Z.of_nat b) = false.
Proof.
  intros H. apply forallb_false in H as (b & Hin & Hb).
  apply in_seq in Hin. exists b. split; [lia | done].
Qed.

Lemma allDriven_false :
  allDriven e = false → ∃ b, (b < nbits e)%nat ∧ drivenFlag e (Z.of_nat b) = false.
Proof.
  intros H. apply forallb_false in H as (b & Hin & Hb).
  apply in_seq in Hin. exists b. split; [lia | done].
Qed.

Lemma existsb_all_false {A} (f : A → bool) (l : list A) :
  (∀ x, f x = false) → existsb f l = false.
Proof. intros H. induction l; simpl; [done|]. by rewrite H. Qed.

Lemma forallb_all_true {A} (f : A → bool) (l : list A) :
  (∀ x, In x l → f x = true) → forallb f l = true.
Proof. intros H. by apply forallb_forall. Qed.

End Combine.

(** The promotion only touches the two whole flags. *)
Lemma promote_flags (e : UndrivenVarEntry) : m_flags (promote e) = m_flags e.
Proof. by rewrite promote_eq. Qed.

Lemma promote_varp (e : UndrivenVarEntry) : m_varp (promote e) = m_varp e.
Proof. by rewrite promote_eq. Qed.

Lemma flag_at_promote (e : UndrivenVarEntry) (i : nat) :
  flag_at (promote e) i = flag_at e i.
Proof. unfold flag_at. by rewrite promote_flags. Qed.

(** ** The range text *)

Section BitNames.

Variables (e : UndrivenVarEntry) (index : Z).

Lemma bitNames_body_seen (bit : Z) (st : string * bool * Z) :
  seen st → seen (bitNames_body e index bit st).
Proof.
  destruct st as [[bits prev] msb]. unfold seen, bitNames_body; simpl.
  intros Hst.
  destruct ((0 <=? bit) && negb (flag_at e (Z.to_nat (bit * FLAGS_PER_BIT + index)))).
  - destruct prev; simpl; auto.
  - destruct prev; simpl; [|destruct Hst; auto; done].
    right. repeat case_match;
      auto using append_nonempty_r, append_nonempty_l, cvtToStr_nonempty.
Qed.

Lemma bitNames_body_qualifies (bit : Z) (st : string * bool * Z) :
  0 <= bit →
  flag_at e (Z.to_nat (bit * FLAGS_PER_BIT + index)) = false →
  seen (bitNames_body e index bit st).
Proof.
  destruct st as [[bits prev] msb]. unfold seen, bitNames_body; simpl.
  intros Hbit ->. replace (0 <=? bit) with true by lia. simpl.
  destruct prev; simpl; auto.
Qed.

Lemma bitNames_body_last (st : string * bool * Z) :
  seen st → (bitNames_body e index (-1) st).1.1 ≠ "".
Proof.
  destruct st as [[bits prev] msb]. unfold seen, bitNames_body; simpl.
  intros Hst. destruct prev; simpl; [|destruct Hst; auto; done].
  repeat case_match;
    auto using append_nonempty_r, append_nonempty_l, cvtToStr_nonempty.
Qed.

Lemma bitNames_loop_nonempty (k : nat) (st : string * bool * Z) :
  seen st ∨
  (∃ b, (b < k)%nat ∧
        flag_at e (Z.to_nat (Z.of_nat b * FLAGS_PER_BIT + index)) = false) →
  (bitNames_loop e index k st).1.1 ≠ "".
Proof.
  revert st. induction k as [|j IH]; intros st H; simpl.
  - apply bitNames_body_last. destruct H as [H | (b & Hb & _)]; [done | lia].
  - apply IH. destruct H as [H | (b & Hb & Hflag)].
    + left. by apply bitNames_body_seen.
    + destruct (decide (b = j)) as [-> | Hne].
      * left. apply bitNames_body_qualifies; [lia | done].
      * right. exists b. split; [lia | done].
Qed.

(** A bit whose flag is clear shows up in the text. *)
Lemma bitNames_not_empty (b : nat) :
  (b < nbits e)%nat →
  flag_at e (Z.to_nat (Z.of_nat b * FLAGS_PER_BIT + index)) = false →
  bitNames e index ≠ "[]".
Proof.
  intros Hb Hflag Heq. unfold bitNames in Heq.
  pose proof (bitNames_loop_nonempty (nbits e) ("", false, 0)) as Hne.
  destruct (bitNames_loop e index (nbits e) ("", false, 0)) as [[bits prev] msb].
  apply bracket_empty in Heq. apply Hne; [|done].
  right. eauto.
Qed.

End BitNames.

(** The text depends on the entry through its variable and the flags of
    the selected kind only. *)
Section BitNamesAgree.

Variables (e1 e2 : UndrivenVarEntry) (index : Z).
Hypothesis Hvarp : m_varp e1 = m_varp e2.

Lemma bitNames_body_agree (bit : Z) st :
  (0 <= bit → agree_at e1 e2 index (Z.to_nat bit)) →
  bitNames_body e1 index bit st = bitNames_body e2 index bit st.
Proof.
  intros Hflag. unfold bitNames_body. rewrite Hvarp.
  destruct (0 <=? bit) eqn:Hbit; [|done].
  unfold agree_at in Hflag. rewrite Z2Nat.id in Hflag by lia.
  rewrite Hflag by lia. done.
Qed.

Lemma bitNames_loop_agree (k : nat) st :
  (∀ b, (b < k)%nat → agree_at e1 e2 index b) →
  bitNames_loop e1 index k st = bitNames_loop e2 index k st.
Proof.
  revert st. induction k as [|j IH]; intros st Hk; simpl.
  - apply bitNames_body_agree. lia.
  - rewrite IH by (intros b Hb; apply Hk; lia). f_equal.
    apply bitNames_body_agree. intros _. rewrite Nat2Z.id. apply Hk. lia.
Qed.

Lemma bitNames_agree :
  nbits e1 = nbits e2 →
  (∀ b, (b < nbits e1)%nat → agree_at e1 e2 index b) →
  bitNames e1 index = bitNames e2 index.
Proof.
  intros Hn Hk. unfold bitNames. rewrite <- Hn.
  by rewrite bitNames_loop_agree.
Qed.

End BitNamesAgree.

Lemma bitNames_ext (e1 e2 : UndrivenVarEntry) (index : Z) :
  m_flags e1 = m_flags e2 → m_varp e1 = m_varp e2 →
  bitNames e1 index = bitNames e2 index.
Proof.
  intros Hf Hv. apply bitNames_agree; [done | |].
  - unfold nbits. by rewrite Hf.
  - intros b _. unfold agree_at, flag_at. by rewrite Hf.
Qed.

Lemma bitNames_promote (e : UndrivenVarEntry) (index : Z) :
  bitNames (promote e) index = bitNames e index.
Proof. apply bitNames_ext; [apply promote_flags | apply promote_varp]. Qed.

(** ** The decision table of [reportViolations] *)

Lemma flag_at_all_clear (e : UndrivenVarEntry) (i : nat) :
  Forall (λ f, f = false) (m_flags e) → flag_at e i = false.
Proof.
  intros Hall. unfold flag_at.
  destruct (m_flags e !! i) as [f|] eqn:Hi; [|done].
  simpl. eapply Forall_lookup_1 in Hall; eauto.
Qed.

Lemma anyUsed_all_clear (e : UndrivenVarEntry) :
  m_usedWhole e = false → Forall (λ f, f = false) (m_flags e) → anyUsed e = false.
Proof.
  intros Hw Hall. unfold anyUsed. rewrite Hw. simpl.
  apply existsb_all_false. intros b. by apply flag_at_all_clear.
Qed.

Lemma anyDriven_all_clear (e : UndrivenVarEntry) :
  m_drivenWhole e = false → Forall (λ f, f = false) (m_flags e) → anyDriven e = false.
Proof.
  intros Hw Hall. unfold anyDriven. rewrite Hw. simpl.
  apply existsb_all_false. intros b. by apply flag_at_all_clear.
Qed.

(** With at least one bit and no flag set, nothing is promoted. *)
Lemma allUsed_all_clear (e : UndrivenVarEntry) :
  (0 < nbits e)%nat → Forall (λ f, f = false) (m_flags e) → allUsed e = false.
Proof.
  intros Hn Hall. unfold allUsed.
  destruct (nbits e) as [|n]; [lia|]. simpl.
  unfold usedFlag at 1. by rewrite flag_at_all_clear.
Qed.

Lemma allDriven_all_clear (e : UndrivenVarEntry) :
  (0 < nbits e)%nat → Forall (λ f, f = false) (m_flags e) → allDriven e = false.
Proof.
  intros Hn Hall. unfold allDriven.
  destruct (nbits e) as [|n]; [lia|]. simpl.
  unfold drivenFlag at 1. by rewrite flag_at_all_clear.
Qed.

(** C1 (as amended): for every signal declaration of at least one bit that
    is neither a parameter nor a generate variable, if neither whole flag
    and no per-bit flag is set, [reportViolations] issues exactly one
    warning, of code UNDRIVEN and text "Signal is not driven, nor used: "
    followed by the name; in particular no UNUSED warning. *)
Theorem untouched_signal_one_undriven (e : UndrivenVarEntry) :
  isParam (m_varp e) = false →
  isGenVar (m_varp e) = false →
  (0 < nbits e)%nat →
  m_usedWhole e = false →
  m_drivenWhole e = false →
  Forall (λ f, f = false) (m_flags e) →
  (reportViolations e).2 =
    [ {| code := UNDRIVEN; nodep := m_varp e;
         msg := "Signal is not driven, nor used: " +:+ prettyName (m_varp e) |} ].
Proof.
  intros Hp Hg Hn Hu Hd Hall.
  rewrite reportViolations_eq, Hp, Hg. simpl.
  rewrite promote_eq. unfold testResults. simpl.
  rewrite allUsed_all_clear, allDriven_all_clear by done.
  rewrite anyUsed_all_clear, anyDriven_all_clear by done.
  by rewrite Hu, Hd.
Qed.

Lemma untouched_signal_one_undriven_witness :
  (reportViolations Examples.x8_fresh).2 =
    [ {| code := UNDRIVEN; nodep := Examples.x8;
         msg := "Signal is not driven, nor used: top.x" |} ].
Proof.
  apply (untouched_signal_one_undriven Examples.x8_fresh);
    try reflexivity.
  - vm_compute. lia.
  - vm_compute. repeat constructor.
Defined.

(** C1 as stated fails on a declaration without bits: its constructor
    succeeds, no flag is ever set, and the promotion (vacuously) turns
    both whole flags on, so that nothing is reported. *)
Lemma zero_width_signal_unreported :
  ∃ e, new Examples.z0 = Some e ∧
       isParam (m_varp e) = false ∧ isGenVar (m_varp e) = false ∧
       m_usedWhole e = false ∧ m_drivenWhole e = false ∧
       Forall (λ f, f = false) (m_flags e) ∧
       (reportViolations e).2 = [].
Proof. eexists. repeat split; try reflexivity. constructor. Qed.

(** C7: when both whole flags are set, [reportViolations] issues no
    warning, whatever the per-bit flags. *)
Theorem whole_flags_silence_report (e : UndrivenVarEntry) :
  m_usedWhole e = true →
  m_drivenWhole e = true →
  (reportViolations e).2 = [].
Proof.
  intros Hu Hd. rewrite reportViolations_eq.
  destruct (negb (isParam (m_varp e)) && negb (isGenVar (m_varp e))); [|done].
  simpl. rewrite promote_eq. unfold testResults. simpl.
  by rewrite Hu, Hd, !orb_true_r.
Qed.

Lemma whole_flags_silence_report_witness :
  (reportViolations (usedWhole (drivenWhole Examples.x8_fresh))).2 = [].
Proof. apply whole_flags_silence_report; reflexivity. Defined.

(** ** Partial warnings *)

Lemma promote_usedWhole_false (e : UndrivenVarEntry) :
  m_usedWhole (promote e) = false → bitNames (promote e) FLAG_USED ≠ "[]".
Proof.
  rewrite promote_eq at 1. simpl. intros [Hall _]%orb_false_elim.
  apply allUsed_false in Hall as (b & Hb & Hflag).
  rewrite bitNames_promote. by apply (bitNames_not_empty e FLAG_USED b).
Qed.

Lemma promote_drivenWhole_false (e : UndrivenVarEntry) :
  m_drivenWhole (promote e) = false → bitNames (promote e) FLAG_DRIVEN ≠ "[]".
Proof.
  rewrite promote_eq at 1. simpl. intros [Hall _]%orb_false_elim.
  apply allDriven_false in Hall as (b & Hb & Hflag).
  rewrite bitNames_promote. by apply (bitNames_not_empty e FLAG_DRIVEN b).
Qed.

(** The five texts of [reportViolations] start differently; [str_cases]
    settles an equation between two of them. *)
Ltac str_cases H :=
  first
    [ apply append_inv_head, append_inv_head in H
    | exfalso; rewrite ?append_cons_l, ?append_nil_l in H; discriminate H ].

(** C10: whenever [reportViolations] issues "Bits of signal are not used"
    or "Bits of signal are not driven", the range text [r] that follows
    the signal's name is not the empty pair of brackets: it names a run. *)
Theorem partial_warning_names_bits (e : UndrivenVarEntry) (d : Diag) (r : string) :
  In d (reportViolations e).2 →
  msg d = "Bits of signal are not used: " +:+ prettyName (m_varp e) +:+ r ∨
  msg d = "Bits of signal are not driven: " +:+ prettyName (m_varp e) +:+ r →
  r ≠ "[]".
Proof.
  rewrite reportViolations_eq.
  destruct (negb (isParam (m_varp e)) && negb (isGenVar (m_varp e))); [|done].
  simpl. unfold testResults. rewrite promote_varp.
  pose proof (promote_usedWhole_false e) as HU.
  pose proof (promote_drivenWhole_false e) as HD.
  destruct (m_usedWhole (promote e)), (m_drivenWhole (promote e)),
    (anyUsed e), (anyDriven e); simpl;
    intros Hin Hmsg; repeat (destruct Hin as [<- | Hin]; simpl in Hmsg);
    try done;
    destruct Hmsg as [Hmsg | Hmsg]; str_cases Hmsg; subst r; auto.
Qed.

Lemma partial_warning_names_bits_witness :
  bitNames (Examples.low4_driven Examples.x8) FLAG_DRIVEN ≠ "[]".
Proof.
  apply (partial_warning_names_bits (Examples.low4_driven Examples.x8)
           {| code := UNDRIVEN; nodep := Examples.x8;
              msg := "Bits of signal are not driven: top.x[7:4]" |}).
  - left. reflexivity.
  - right. reflexivity.
Defined.

(** C6, general part: the whole flags as [reportViolations] leaves them,
    and the table evaluated on the promoted entry. *)
Lemma reportViolations_promotes (e : UndrivenVarEntry) :
  isParam (m_varp e) = false →
  isGenVar (m_varp e) = false →
  reportViolations e = (promote e, testResults (promote e) (anyUsed e) (anyDriven e)).
Proof. intros Hp Hg. by rewrite reportViolations_eq, Hp, Hg. Qed.

Lemma promote_all_used (e : UndrivenVarEntry) :
  (∀ b, (b < nbits e)%nat → usedFlag e (Z.of_nat b) = true) →
  m_usedWhole (promote e) = true.
Proof.
  intros Hall. rewrite promote_eq. simpl.
  unfold allUsed. rewrite forallb_all_true; [done|].
  intros b Hb%in_seq. apply Hall. lia.
Qed.

Lemma promote_all_driven (e : UndrivenVarEntry) :
  (∀ b, (b < nbits e)%nat → drivenFlag e (Z.of_nat b) = true) →
  m_drivenWhole (promote e) = true.
Proof.
  intros Hall. rewrite promote_eq. simpl.
  unfold allDriven. rewrite forallb_all_true; [done|].
  intros b Hb%in_seq. apply Hall. lia.
Qed.

(** ** Endianness of the range text *)

Lemma low7_used_is_usedBit (v : AstVar) (e0 : UndrivenVarEntry) :
  width v = 10 → new v = Some e0 → usedBit 0 7 e0 = Some (Examples.low7_used v).
Proof.
  unfold new. intros ->. simpl. intros [= <-]. reflexivity.
Qed.

(** C4: on a 10-bit signal with lsb offset 0 whose unused bits are exactly
    the local bits 7, 8 and 9, [bitNames] yields [9:7] for a descending
    declaration and [7:9] for an ascending (little-endian) one. *)
Theorem range_text_endianness (e : UndrivenVarEntry) :
  nbits e = 10%nat →
  basic_lsb (m_varp e) = 0 →
  (∀ b, (b < 10)%nat → usedFlag e (Z.of_nat b) = (Z.of_nat b <? 7)) →
  bitNames e FLAG_USED =
    if basic_littleEndian (m_varp e) then "[7:9]" else "[9:7]".
Proof.
  intros Hn Hlsb Hflags.
  rewrite (bitNames_agree e (Examples.low7_used (m_varp e))); [|done|done|].
  - destruct (m_varp e) as [a n w p g i o sp srw srd l le].
    simpl in Hlsb. subst l. by destruct le.
  - rewrite Hn. intros b Hb. unfold agree_at.
    change (flag_at e (Z.to_nat (Z.of_nat b * FLAGS_PER_BIT + FLAG_USED)))
      with (usedFlag e (Z.of_nat b)).
    rewrite Hflags by done.
    do 10 (destruct b as [|b]; [reflexivity|]). lia.
Qed.

Lemma range_text_endianness_witness :
  bitNames (Examples.low7_used Examples.d10) FLAG_USED = "[9:7]" ∧
  bitNames (Examples.low7_used Examples.a10) FLAG_USED = "[7:9]".
Proof.
  split.
  - apply (range_text_endianness (Examples.low7_used Examples.d10));
      [reflexivity | reflexivity |].
    intros b Hb. do 10 (destruct b as [|b]; [reflexivity|]). lia.
  - apply (range_text_endianness (Examples.low7_used Examples.a10));
      [reflexivity | reflexivity |].
    intros b Hb. do 10 (destruct b as [|b]; [reflexivity|]). lia.
Defined.

(** ** [usedBit] and [drivenBit] *)

Section Int32Facts.

Lemma wrap_small (z : Z) : - 2 ^ 31 <= z < 2 ^ 31 → Int32.wrap z = z.
Proof. intros Hz. unfold Int32.wrap. rewrite Z.mod_small; lia. Qed.

Lemma add_small (a b : Z) : - 2 ^ 31 <= a + b < 2 ^ 31 → Int32.add a b = a + b.
Proof. apply wrap_small. Qed.

Lemma mul_small (a b : Z) : - 2 ^ 31 <= a * b < 2 ^ 31 → Int32.mul a b = a * b.
Proof. apply wrap_small. Qed.

End Int32Facts.

Section MarkBits.

Variables (flag : Z) (W : nat).
Hypothesis Hflag : flag = FLAG_USED ∨ flag = FLAG_DRIVEN.

Lemma flag_at_set_flag (e e' : UndrivenVarEntry) (i : Z) (j : nat) :
  set_flag e i = Some e' →
  flag_at e' j = flag_at e j || bool_decide (Z.of_nat j = i).
Proof.
  unfold set_flag. case_match eqn:Hi; [|done]. intros [= <-].
  apply andb_true_iff in Hi as [Hlo Hhi].
  unfold flag_at; simpl. case_bool_decide as Hj.
  - rewrite orb_true_r. rewrite <- Hj, Nat2Z.id.
    rewrite list_lookup_insert_eq; [done | lia].
  - rewrite orb_false_r. rewrite list_lookup_insert_ne; [done | lia].
Qed.

(** One iteration, on a bit number that fits: the flag is set when the
    signal has the bit, and the iteration is a no-op otherwise. *)
Lemma markBit_spec (bit i : Z) (e : UndrivenVarEntry) :
  entry_ok W e → 0 <= bit + i < 2 ^ 30 →
  ∃ e', markBit flag bit i e = Some e' ∧
        entry_ok W e' ∧
        m_varp e' = m_varp e ∧
        m_usedWhole e' = m_usedWhole e ∧
        m_drivenWhole e' = m_drivenWhole e ∧
        ∀ j, flag_at e' j =
             flag_at e j || marked flag (bit + i) (bit + i + 1) W j.
Proof.
  intros [Hlen HW] Hb. unfold markBit, bitNumOk, flags_size.
  rewrite add_small by lia.
  rewrite mul_small by (unfold FLAGS_PER_BIT; lia).
  rewrite (wrap_small (Z.of_nat _)) by lia.
  rewrite add_small by (unfold FLAGS_PER_BIT, FLAG_USED, FLAG_DRIVEN in *; lia).
  destruct (_ <? _) eqn:Hok.
  - unfold set_flag.
    replace ((0 <=? _) && (_ <? _)) with true; cycle 1.
    { symmetry. apply andb_true_iff.
      unfold FLAGS_PER_BIT, FLAG_USED, FLAG_DRIVEN in *. lia. }
    eexists. split; [done|]. split_and!; simpl; try done.
    + split; [|done]. simpl. by rewrite length_insert.
    + intros j.
      rewrite (flag_at_set_flag e _ ((bit + i) * FLAGS_PER_BIT + flag)); cycle 1.
      { unfold set_flag.
        replace ((0 <=? _) && (_ <? _)) with true; [done|].
        symmetry. apply andb_true_iff.
        unfold FLAGS_PER_BIT, FLAG_USED, FLAG_DRIVEN in *. lia. }
      f_equal. unfold marked. apply bool_decide_ext.
      unfold FLAGS_PER_BIT, FLAG_USED, FLAG_DRIVEN in *.
      Z.div_mod_to_equations. lia.
  - exists e. split_and!; try done.
    intros j. unfold marked. rewrite bool_decide_eq_false_2; [by rewrite orb_false_r|].
    unfold FLAGS_PER_BIT in *. Z.div_mod_to_equations. lia.
Qed.

Lemma marked_split (lo hi : Z) (j : nat) :
  lo < hi →
  marked flag lo hi W j = marked flag lo (lo + 1) W j || marked flag (lo + 1) hi W j.
Proof.
  intros Hlt. unfold marked.
  apply eq_true_iff_eq.
  rewrite orb_true_iff, !bool_decide_eq_true. lia.
Qed.

Lemma marked_empty (lo : Z) (j : nat) : marked flag lo lo W j = false.
Proof. unfold marked. apply bool_decide_eq_false_2. lia. Qed.

(** The loop, from iteration [i] on. *)
Lemma markBits_spec (bit : Z) (n : nat) (i : Z) (e : UndrivenVarEntry) :
  entry_ok W e → 0 <= bit + i → bit + i + Z.of_nat n <= 2 ^ 30 →
  ∃ e', markBits flag bit n i e = Some e' ∧
        entry_ok W e' ∧
        m_varp e' = m_varp e ∧
        m_usedWhole e' = m_usedWhole e ∧
        m_drivenWhole e' = m_drivenWhole e ∧
        ∀ j, flag_at e' j =
             flag_at e j || marked flag (bit + i) (bit + i + Z.of_nat n) W j.
Proof.
  revert i e. induction n as [|n IH]; intros i e Hok Hlo Hhi.
  - exists e. split_and!; try done.
    intros j. by rewrite Z.add_0_r, marked_empty, orb_false_r.
  - simpl markBits.
    destruct (markBit_spec bit i e) as (e1 & -> & Hok1 & Hv1 & Hu1 & Hd1 & Hf1);
      [done | lia |].
    simpl. destruct (IH (i + 1) e1) as (e2 & -> & Hok2 & Hv2 & Hu2 & Hd2 & Hf2);
      [done | lia | lia |].
    exists e2. split_and!; try congruence.
    intros j. rewrite Hf2, Hf1, <- orb_assoc. f_equal.
    rewrite (marked_split (bit + i) (bit + i + Z.of_nat (S n))) by lia.
    do 2 f_equal; lia.
Qed.

End MarkBits.

Lemma new_entry_ok (v : AstVar) (e : UndrivenVarEntry) :
  0 <= width v < 2 ^ 30 → new v = Some e → entry_ok (Z.to_nat (width v)) e.
Proof.
  intros Hw. unfold new.
  rewrite mul_small by (unfold FLAGS_PER_BIT; lia).
  case_match; [done|]. intros [= <-]. unfold entry_ok; simpl.
  rewrite length_replicate. unfold FLAGS_PER_BIT. lia.
Qed.

(** X1: inside the range of [int] arithmetic and from bit 0 upwards,
    [usedBit] does what its bounds check is for: it sets the used flag of
    the bits of [bit, bit+w) the signal has, drops the others, and leaves
    everything else alone. *)
Lemma usedBit_spec (W : nat) (e : UndrivenVarEntry) (bit w : Z) :
  entry_ok W e → 0 <= bit → 0 <= w → bit + w <= 2 ^ 30 →
  ∃ e', usedBit bit w e = Some e' ∧
        entry_ok W e' ∧
        m_varp e' = m_varp e ∧
        m_usedWhole e' = m_usedWhole e ∧
        m_drivenWhole e' = m_drivenWhole e ∧
        (∀ b : nat, usedFlag e' (Z.of_nat b) =
                    usedFlag e (Z.of_nat b)
                    || bool_decide (bit <= Z.of_nat b < bit + w ∧ (b < W)%nat)) ∧
        (∀ b : nat, drivenFlag e' (Z.of_nat b) = drivenFlag e (Z.of_nat b)).
Proof.
  intros Hok Hbit Hw Hhi. unfold usedBit.
  destruct (markBits_spec FLAG_USED W (or_introl eq_refl) bit (Z.to_nat w) 0 e)
    as (e' & -> & Hok' & Hv & Hu & Hd & Hf); [done | lia | lia |].
  exists e'. split_and!; try done.
  - intros b. unfold usedFlag. rewrite Hf. f_equal.
    unfold marked. apply bool_decide_ext.
    unfold FLAGS_PER_BIT, FLAG_USED. Z.div_mod_to_equations. lia.
  - intros b. unfold drivenFlag. rewrite Hf.
    unfold marked. rewrite bool_decide_eq_false_2; [by rewrite orb_false_r|].
    unfold FLAGS_PER_BIT, FLAG_USED, FLAG_DRIVEN. Z.div_mod_to_equations. lia.
Qed.

(** X2: likewise [drivenBit] sets the driven flag of the bits of
    [bit, bit+w) the signal has, drops the others, and leaves the used
    flags, the whole flags and the size alone. *)
Lemma drivenBit_spec (W : nat) (e : UndrivenVarEntry) (bit w : Z) :
  entry_ok W e → 0 <= bit → 0 <= w → bit + w <= 2 ^ 30 →
  ∃ e', drivenBit bit w e = Some e' ∧
        entry_ok W e' ∧
        m_varp e' = m_varp e ∧
        m_usedWhole e' = m_usedWhole e ∧
        m_drivenWhole e' = m_drivenWhole e ∧
        (∀ b : nat, drivenFlag e' (Z.of_nat b) =
                    drivenFlag e (Z.of_nat b)
                    || bool_decide (bit <= Z.of_nat b < bit + w ∧ (b < W)%nat)) ∧
        (∀ b : nat, usedFlag e' (Z.of_nat b) = usedFlag e (Z.of_nat b)).
Proof.
  intros Hok Hbit Hw Hhi. unfold drivenBit.
  destruct (markBits_spec FLAG_DRIVEN W (or_intror eq_refl) bit (Z.to_nat w) 0 e)
    as (e' & -> & Hok' & Hv & Hu & Hd & Hf); [done | lia | lia |].
  exists e'. split_and!; try done.
  - intros b. unfold drivenFlag. rewrite Hf. f_equal.
    unfold marked. apply bool_decide_ext.
    unfold FLAGS_PER_BIT, FLAG_DRIVEN. Z.div_mod_to_equations. lia.
  - intros b. unfold usedFlag. rewrite Hf.
    unfold marked. rewrite bool_decide_eq_false_2; [by rewrite orb_false_r|].
    unfold FLAGS_PER_BIT, FLAG_USED, FLAG_DRIVEN. Z.div_mod_to_equations. lia.
Qed.

(** C2, where the code departs from it: [bitNumOk] has no lower bound, so
    a negative bit number passes the check and the flag is written in
    front of the vector.  [usedBit(-1, 1)] and [drivenBit(-1, 1)] on the
    8-bit entry do not drop the index, and a constant select at
    [32'hFFFF_FFFF] (which [int lsb = constp->toUInt()] turns into -1)
    brings the visitor there. *)
Theorem negative_bit_passes_bitNumOk :
  bitNumOk Examples.x8_fresh (-1) = true ∧
  usedBit (-1) 1 Examples.x8_fresh = None ∧
  drivenBit (-1) 1 Examples.x8_fresh = None ∧
  undrivenAll ∅ Examples.read_x8_at_minus_one = None.
Proof. split_and!; by vm_compute. Qed.

(** ** The traversal is the run of its accesses *)

Lemma run_app (l1 l2 : list Access) (st : UndrivenVisitor) :
  run (l1 ++ l2)%list st = st' ← run l1 st; run l2 st'.
Proof.
  revert st. induction l1 as [|a l1 IH]; intros st; simpl; [done|].
  destruct (access a st) as [st1|]; simpl; [apply IH | done].
Qed.

Lemma visit_run (nodep : AstNode) :
  ∀ st, visit nodep st = run (accesses nodep) st.
Proof.
  assert (Hlist : ∀ cs, Forall (λ c, ∀ st, visit c st = run (accesses c) st) cs →
                  ∀ st, iterateChildren cs st = run (accesses_list cs) st).
  { intros cs Hcs. induction Hcs as [|c cs Hc _ IH]; intros st; simpl; [done|].
    rewrite run_app, Hc. destruct (run (accesses c) st); simpl; [apply IH | done]. }
  induction nodep as [v cs IH|cs IH|w f l wd IHf IHl IHwd|v lv
                      |cs _|cs _|cs _|cs _|cs _|num|cs IH]
    using AstNode_induction; intros st;
    try reflexivity.
  - change (visit (Var v cs) st) with (st' ← visitVar v st; iterateChildren cs st').
    change (accesses (Var v cs)) with (ADecl v :: accesses_list cs).
    simpl. destruct (visitVar v st) as [st1|]; simpl; [|reflexivity].
    apply Hlist, IH.
  - change (iterateChildren cs st = run (accesses_list cs) st). by apply Hlist.
  - assert (Hgen : (st1 ← visit f st; st2 ← visit l st1; visit wd st2) =
                   run (accesses f ++ accesses l ++ accesses wd)%list st).
    { rewrite run_app, IHf. destruct (run (accesses f) st); simpl; [|done].
      rewrite run_app, IHl. destruct (run (accesses l) _); simpl; [|done].
      apply IHwd. }
    simpl. destruct (castVarRef f) as [[varp lvalue]|]; [|exact Hgen].
    destruct (castConst l) as [num|]; [|exact Hgen].
    destruct (negb (isFourState num)); [|exact Hgen].
    simpl. by destruct (visitSelConst _ _ _ _ _).
  - simpl. by destruct (visitVarRef _ _ _).
  - change (iterateChildren cs st = run (accesses_list cs) st). by apply Hlist.
Qed.

(** ** Where the accesses come from *)

Lemma accesses_list_In (cs : list AstNode) (a : Access) :
  In a (accesses_list cs) ↔ ∃ c, In c cs ∧ In a (accesses c).
Proof.
  induction cs as [|c cs IH]; simpl.
  - split; [done | by intros (? & [] & _)].
  - rewrite in_app_iff, IH. split.
    + intros [H | (c' & ? & ?)]; eauto.
    + intros (c' & [<- | ?] & ?); eauto.
Qed.

Lemma accesses_Var v cs : accesses (Var v cs) = ADecl v :: accesses_list cs.
Proof. reflexivity. Qed.
Lemma accesses_ArraySel cs : accesses (ArraySel cs) = accesses_list cs.
Proof. reflexivity. Qed.
Lemma accesses_Node cs : accesses (Node cs) = accesses_list cs.
Proof. reflexivity. Qed.

(** The accesses of a child the visitor descends into are among those of
    its parent. *)
Lemma accesses_iterated (t c : AstNode) (a : Access) :
  In c (iterated t) → In a (accesses c) → In a (accesses t).
Proof.
  destruct t as [v cs|cs|w f l wd|v lv|cs|cs|cs|cs|cs|num|cs]; try (by simpl).
  - rewrite accesses_Var. intros Hc Ha. right. apply accesses_list_In. eauto.
  - rewrite accesses_ArraySel. intros Hc Ha. apply accesses_list_In. eauto.
  - simpl.
    assert (In c [f; l; wd] → In a (accesses c) →
            In a (accesses f ++ accesses l ++ accesses wd)%list) as Hgen.
    { simpl. rewrite !in_app_iff. intros [<- | [<- | [<- | []]]]; auto. }
    destruct (castVarRef f) as [[varp lvalue]|]; [|exact Hgen].
    destruct (castConst l) as [num|]; [|exact Hgen].
    destruct (negb (isFourState num)); [by simpl | exact Hgen].
  - rewrite accesses_Node. intros Hc Ha. apply accesses_list_In. eauto.
Qed.

Lemma accesses_visited (t n : AstNode) (a : Access) :
  visited t n → In a (accesses n) → In a (accesses t).
Proof.
  induction 1 as [n | t c n Hc _ IH]; [done|].
  intros Ha. eapply accesses_iterated; eauto.
Qed.

Lemma visited_VarRef (t : AstNode) (v : AstVar) (lvalue : bool) :
  visited t (VarRef v lvalue) → In (AWhole v lvalue) (accesses t).
Proof. intros H. eapply accesses_visited; [exact H | by left]. Qed.

Lemma visited_Var (t : AstNode) (v : AstVar) (cs : list AstNode) :
  visited t (Var v cs) → In (ADecl v) (accesses t).
Proof. intros H. eapply accesses_visited; [exact H | by left]. Qed.

Lemma castVarRef_Some (n : AstNode) v lvalue :
  castVarRef n = Some (v, lvalue) → n = VarRef v lvalue.
Proof. destruct n; simpl; congruence. Qed.

(** Every reference rule that fires on [v] fires at a reference to [v]
    outside the coverage and trace nodes. *)
Lemma accesses_outside (t : AstNode) :
  ∀ a, In a (accesses t) →
       match a with
       | ADecl _ => True
       | AWhole v lvalue | ABits v lvalue _ _ => outside t (VarRef v lvalue)
       end.
Proof.
  assert (Hlist : ∀ t0 cs, instrumentation t0 = false → operands t0 = cs →
            Forall (λ c, ∀ a, In a (accesses c) →
                     match a with
                     | ADecl _ => True
                     | AWhole v lvalue | ABits v lvalue _ _ => outside c (VarRef v lvalue)
                     end) cs →
            ∀ a, In a (accesses_list cs) →
                 match a with
                 | ADecl _ => True
                 | AWhole v lvalue | ABits v lvalue _ _ => outside t0 (VarRef v lvalue)
                 end).
  { intros t0 cs Hi Hop Hall a (c & Hc & Ha)%accesses_list_In.
    rewrite List.Forall_forall in Hall. specialize (Hall c Hc a Ha).
    destruct a; [done | |]; eapply outside_below; eauto; by rewrite Hop. }
  induction t as [v cs IH|cs IH|w f l wd IHf IHl IHwd|v lv
                 |cs _|cs _|cs _|cs _|cs _|num|cs IH]
    using AstNode_induction; intros a; try (by simpl).
  - rewrite accesses_Var. intros [<- | Ha]; [done|]. by eapply Hlist.
  - rewrite accesses_ArraySel. intros Ha. by eapply Hlist.
  - assert (Hgen : In a (accesses f ++ accesses l ++ accesses wd)%list →
            match a with
            | ADecl _ => True
            | AWhole v lvalue | ABits v lvalue _ _ =>
                outside (Sel w f l wd) (VarRef v lvalue)
            end).
    { intros Ha.
      apply (Hlist (Sel w f l wd) [f; l; wd]); [done | done | |].
      - repeat constructor; done.
      - simpl. by rewrite app_nil_r. }
    simpl. destruct (castVarRef f) as [[varp lvalue]|] eqn:Hf; [|exact Hgen].
    destruct (castConst l) as [num|]; [|exact Hgen].
    destruct (negb (isFourState num)); [|exact Hgen].
    intros [<- | []]. apply castVarRef_Some in Hf as ->.
    eapply outside_below; [done | by left | constructor].
  - simpl. intros [<- | []]. constructor.
  - rewrite accesses_Node. intros Ha. by eapply Hlist.
Qed.

Lemma instrumentation_only_untouched (v : AstVar) (t : AstNode) :
  instrumentation_only v t → Forall (untouched v) (accesses t).
Proof.
  intros Honly. apply List.Forall_forall. intros a Ha.
  apply accesses_outside in Ha.
  destruct a as [v'|v' lv|v' lv lsb w]; simpl; [done | |];
    intros ->; by apply (Honly lv).
Qed.

Lemma visited_trans (t n m : AstNode) :
  visited t n → visited n m → visited t m.
Proof.
  induction 1 as [n | t c n Hc _ IH]; [done|].
  intros Hm. eapply visited_below; eauto.
Qed.

(** ** Entries only gain flags *)

Lemma entry_le_refl (e : UndrivenVarEntry) : entry_le e e.
Proof. by unfold entry_le. Qed.

Lemma entry_le_trans (e1 e2 e3 : UndrivenVarEntry) :
  entry_le e1 e2 → entry_le e2 e3 → entry_le e1 e3.
Proof.
  intros (Hv1 & Hu1 & Hd1 & Hl1 & Hf1) (Hv2 & Hu2 & Hd2 & Hl2 & Hf2).
  unfold entry_le. split_and!; try congruence; auto.
Qed.

Lemma usedWhole_le (e : UndrivenVarEntry) : entry_le e (usedWhole e).
Proof. by unfold entry_le. Qed.

Lemma drivenWhole_le (e : UndrivenVarEntry) : entry_le e (drivenWhole e).
Proof. by unfold entry_le. Qed.

Lemma set_flag_le (e e' : UndrivenVarEntry) (i : Z) :
  set_flag e i = Some e' → entry_le e e'.
Proof.
  intros Hset. pose proof (flag_at_set_flag e e' i) as Hflag.
  unfold set_flag in Hset. case_match; [|done]. injection Hset as <-.
  unfold entry_le; simpl. split_and!; try done.
  - by rewrite length_insert.
  - intros j Hj. rewrite Hflag by (unfold set_flag; by case_match).
    by rewrite Hj.
Qed.

Lemma markBit_le (flag bit i : Z) (e e' : UndrivenVarEntry) :
  markBit flag bit i e = Some e' → entry_le e e'.
Proof.
  unfold markBit. case_match.
  - apply set_flag_le.
  - intros [= <-]. apply entry_le_refl.
Qed.

Lemma markBits_le (flag bit : Z) (n : nat) (i : Z) (e e' : UndrivenVarEntry) :
  markBits flag bit n i e = Some e' → entry_le e e'.
Proof.
  revert i e. induction n as [|n IH]; intros i e; simpl.
  - intros [= <-]. apply entry_le_refl.
  - destruct (markBit flag bit i e) as [e1|] eqn:H1; simpl; [|done].
    intros H2. eapply entry_le_trans; [by eapply markBit_le | by eapply IH].
Qed.

Lemma method_le (a : Access) (e e' : UndrivenVarEntry) :
  method a e = Some e' → entry_le e e'.
Proof.
  destruct a as [v|v lv|v lv lsb w]; simpl.
  - intros [= <-]. destruct (ext_driven v), (ext_used v);
      eauto using entry_le_refl, usedWhole_le, drivenWhole_le, entry_le_trans.
  - intros [= <-]. destruct lv; auto using usedWhole_le, drivenWhole_le.
  - destruct lv; apply markBits_le.
Qed.

Lemma new_varp (v : AstVar) (e : UndrivenVarEntry) : new v = Some e → m_varp e = v.
Proof. unfold new. case_match; [done|]. by intros [= <-]. Qed.

Lemma new_decl_entry (v : AstVar) (e : UndrivenVarEntry) :
  new v = Some e → e = decl_entry v false.
Proof. unfold new. case_match; [done|]. by intros [= <-]. Qed.

(** ** One access on the state *)

Lemma call_spec (p : nat) (f : UndrivenVarEntry → option UndrivenVarEntry)
    (st st' : UndrivenVisitor) :
  call p f st = Some st' →
  ∃ e e', m_entryps st !! p = Some e ∧ f e = Some e' ∧
          st' = {| user1p := user1p st; m_entryps := <[p := e']> (m_entryps st) |}.
Proof.
  unfold call. destruct (m_entryps st !! p) as [e|]; simpl; [|done].
  destruct (f e) as [e'|] eqn:Hf; simpl; [|done]. intros [= <-].
  by exists e, e'.
Qed.

Lemma call_twice (p : nat) (f g : UndrivenVarEntry → UndrivenVarEntry)
    (st : UndrivenVisitor) :
  (st' ← call p (λ e, Some (f e)) st; call p (λ e, Some (g e)) st') =
  call p (λ e, Some (g (f e))) st.
Proof.
  unfold call. destruct (m_entryps st !! p) as [e|] eqn:Hp; simpl; [|done].
  rewrite list_lookup_insert_eq by (by eapply lookup_lt_Some). simpl.
  by rewrite list_insert_insert_eq.
Qed.

Lemma call_id (p : nat) (e : UndrivenVarEntry) (st : UndrivenVisitor) :
  m_entryps st !! p = Some e → call p (λ e, Some e) st = Some st.
Proof.
  intros Hp. unfold call. rewrite Hp. simpl.
  rewrite list_insert_id by done. by destruct st.
Qed.

(** Every access finds or creates the entry of its declaration and runs
    its method on it. *)
Lemma access_getEntryp (a : Access) (st : UndrivenVisitor) :
  (∀ p, user1p st !! var_of a = Some p → is_Some (m_entryps st !! p)) →
  access a st = '(p, st1) ← getEntryp (var_of a) st; call p (method a) st1.
Proof.
  intros Hlive. destruct a as [v|v lv|v lv lsb w]; simpl.
  - unfold visitVar. fold (ext_driven v). fold (ext_used v).
    destruct (getEntryp v st) as [[p st1]|] eqn:Hget; simpl; [|done].
    assert (is_Some (m_entryps st1 !! p)) as [e He].
    { unfold getEntryp in Hget.
      destruct (user1p st !! v) as [q|] eqn:Hq.
      - injection Hget as <- <-. by apply Hlive.
      - destruct (new v) as [e|]; simpl in Hget; [|done].
        injection Hget as <- <-. simpl.
        exists e. by rewrite lookup_app_r, Nat.sub_diag. }
    unfold method. destruct (ext_driven v), (ext_used v).
    + by rewrite call_twice.
    + by destruct (call p _ st1).
    + done.
    + by rewrite (call_id p e).
  - unfold visitVarRef. destruct (getEntryp v st) as [[p st1]|]; simpl; [|done].
    by destruct lv.
  - unfold visitSelConst. destruct (getEntryp v st) as [[p st1]|]; simpl; [|done].
    by destruct lv.
Qed.

Lemma wf_live (st : UndrivenVisitor) (v : AstVar) (p : nat) :
  wf st → user1p st !! v = Some p → is_Some (m_entryps st !! p).
Proof. intros [H1 _] Hp. destruct (H1 v p Hp) as (e & He & _). eauto. Qed.

Lemma access_spec (a : Access) (st st' : UndrivenVisitor) :
  wf st → access a st = Some st' →
  ∃ p e e',
    match user1p st !! var_of a with
    | Some q => q = p ∧ m_entryps st !! p = Some e
    | None => p = length (m_entryps st) ∧ new (var_of a) = Some e
    end ∧
    m_varp e = var_of a ∧
    method a e = Some e' ∧
    user1p st' = <[var_of a := p]> (user1p st) ∧
    m_entryps st' = <[p := e']> (with_entry a st e).
Proof.
  intros Hwf. rewrite access_getEntryp by eauto using wf_live.
  unfold getEntryp, with_entry.
  destruct (user1p st !! var_of a) as [q|] eqn:Hq; simpl.
  - intros (e & e' & He & Hm & ->)%call_spec. exists q, e, e'.
    split_and!; try done.
    + destruct Hwf as [H1 _]. destruct (H1 _ _ Hq) as (e0 & He0 & Hv). congruence.
    + simpl. by rewrite insert_id.
  - destruct (new (var_of a)) as [e0|] eqn:Hnew; simpl; [|done].
    intros (e & e' & He & Hm & ->)%call_spec. simpl in He.
    rewrite lookup_app_r, Nat.sub_diag in He by done. injection He as <-.
    exists (length (m_entryps st)), e0, e'. split_and!; try done.
    by apply new_varp.
Qed.

(** The same, read through lookups. *)
Lemma access_lookup (a : Access) (st st' : UndrivenVisitor) :
  wf st → access a st = Some st' →
  ∃ p e e',
    (user1p st !! var_of a = Some p ∧ m_entryps st !! p = Some e ∨
     user1p st !! var_of a = None ∧ p = length (m_entryps st) ∧
     new (var_of a) = Some e) ∧
    m_varp e = var_of a ∧
    method a e = Some e' ∧
    user1p st' !! var_of a = Some p ∧
    m_entryps st' !! p = Some e' ∧
    (∀ w, w ≠ var_of a → user1p st' !! w = user1p st !! w) ∧
    (∀ q x, q ≠ p → m_entryps st !! q = Some x → m_entryps st' !! q = Some x) ∧
    (∀ q x, q ≠ p → m_entryps st' !! q = Some x → m_entryps st !! q = Some x).
Proof.
  intros Hwf Hacc.
  destruct (access_spec a st st' Hwf Hacc) as (p & e & e' & Hcase & Hv & Hm & Hu & He).
  exists p, e, e'. rewrite Hu, He. unfold with_entry.
  destruct (user1p st !! var_of a) as [q|] eqn:Hq.
  - destruct Hcase as [-> Hp]. split_and!; try done.
    + by left.
    + apply lookup_insert_eq.
    + apply list_lookup_insert_eq. by eapply lookup_lt_Some.
    + intros w Hw. by rewrite lookup_insert_ne.
    + intros q x Hne Hx. by rewrite list_lookup_insert_ne.
    + intros q x Hne Hx. by rewrite list_lookup_insert_ne in Hx.
  - destruct Hcase as [-> Hnew]. split_and!; try done.
    + right. done.
    + apply lookup_insert_eq.
    + apply list_lookup_insert_eq. rewrite length_app. simpl. lia.
    + intros w Hw. by rewrite lookup_insert_ne.
    + intros q x Hne Hx. rewrite list_lookup_insert_ne by done.
      by apply lookup_app_l_Some.
    + intros q x Hne Hx. rewrite list_lookup_insert_ne in Hx by done.
      apply lookup_app_Some in Hx as [Hx | [Hge Hx]]; [done|].
      apply list_lookup_singleton_Some in Hx as [Hx _]. lia.
Qed.

Lemma wf_init : wf init.
Proof.
  split; simpl.
  - intros v p Hp. by rewrite lookup_empty in Hp.
  - intros p e He. by rewrite lookup_nil in He.
Qed.

Lemma access_wf (a : Access) (st st' : UndrivenVisitor) :
  wf st → access a st = Some st' → wf st'.
Proof.
  intros Hwf Hacc.
  destruct (access_lookup a st st' Hwf Hacc)
    as (p & e & e' & Hcase & Hv & Hm & Hu & He & Hfu & Hfe & Hfe').
  apply method_le in Hm as Hle. destruct Hle as (Hv' & _).
  destruct Hwf as [H1 H2]. split.
  - intros w q Hw. destruct (decide (w = var_of a)) as [-> | Hne].
    + rewrite Hu in Hw. injection Hw as <-. exists e'. split; congruence.
    + rewrite Hfu in Hw by done. destruct (H1 w q Hw) as (x & Hx & Hxv).
      exists x. split; [|done]. apply Hfe; [|done].
      intros ->. destruct Hcase as [[Hp Hpe] | (Hnone & -> & _)].
      * destruct (H1 _ _ Hp) as (y & Hy & Hyv). congruence.
      * apply lookup_lt_Some in Hx. lia.
  - intros q x Hx. destruct (decide (q = p)) as [-> | Hne].
    + assert (x = e') as -> by congruence. congruence.
    + apply Hfe' in Hx; [|done]. specialize (H2 q x Hx).
      rewrite Hfu; [done|]. intros Heq. rewrite Heq in H2.
      destruct Hcase as [[Hp _] | (Hnone & _)]; congruence.
Qed.

Lemma access_extends (a : Access) (st st' : UndrivenVisitor) :
  wf st → access a st = Some st' → extends st st'.
Proof.
  intros Hwf Hacc.
  destruct (access_lookup a st st' Hwf Hacc)
    as (p & e & e' & Hcase & Hv & Hm & Hu & He & Hfu & Hfe & Hfe').
  apply method_le in Hm as Hle. split.
  - intros w q Hw. destruct (decide (w = var_of a)) as [-> | Hne].
    + destruct Hcase as [[Hp _] | (Hnone & _)]; congruence.
    + by rewrite Hfu.
  - intros q x Hx. destruct (decide (q = p)) as [-> | Hne].
    + destruct Hcase as [[_ Hp] | (_ & -> & _)].
      * exists e'. split; [done|]. congruence.
      * apply lookup_lt_Some in Hx. lia.
    + exists x. split; [by apply Hfe | apply entry_le_refl].
Qed.

Lemma extends_refl (st : UndrivenVisitor) : extends st st.
Proof. split; [done|]. intros p e He. exists e. split; [done | apply entry_le_refl]. Qed.

Lemma extends_trans (st1 st2 st3 : UndrivenVisitor) :
  extends st1 st2 → extends st2 st3 → extends st1 st3.
Proof.
  intros [Hu1 He1] [Hu2 He2]. split; [auto|].
  intros p e He. destruct (He1 p e He) as (e2 & Hp2 & Hle2).
  destruct (He2 p e2 Hp2) as (e3 & Hp3 & Hle3).
  exists e3. split; [done|]. by eapply entry_le_trans.
Qed.

Lemma run_wf (l : list Access) (st st' : UndrivenVisitor) :
  wf st → run l st = Some st' → wf st' ∧ extends st st'.
Proof.
  revert st. induction l as [|a l IH]; intros st Hwf; simpl.
  - intros [= <-]. split; [done | apply extends_refl].
  - destruct (access a st) as [st1|] eqn:Hacc; simpl; [|done].
    intros Hrun. pose proof (access_wf a st st1 Hwf Hacc) as Hwf1.
    destruct (IH st1 Hwf1 Hrun) as [Hwf' Hext]. split; [done|].
    eapply extends_trans; [by eapply access_extends | done].
Qed.

(** ** Whose warning it is *)

Lemma testResults_nodep (e : UndrivenVarEntry) (anyU anyD : bool) (d : Diag) :
  In d (testResults e anyU anyD) → nodep d = m_varp e.
Proof.
  unfold testResults. repeat case_match; simpl; intros Hin;
    repeat (destruct Hin as [<- | Hin]; [done|]); done.
Qed.

Lemma reportViolations_nodep (e : UndrivenVarEntry) (d : Diag) :
  In d (reportViolations e).2 → nodep d = m_varp e.
Proof.
  rewrite reportViolations_eq. case_match; [|done]. simpl.
  intros Hin%testResults_nodep. by rewrite promote_varp in Hin.
Qed.

Lemma warnings_on_own (v : AstVar) (ds : list Diag) :
  (∀ d, In d ds → nodep d = v) → warnings_on v ds = ds.
Proof.
  intros Hall. unfold warnings_on. induction ds as [|d ds IH]; [done|].
  rewrite filter_cons_True by (apply Hall; by left).
  f_equal. apply IH. intros d' Hd'. apply Hall. by right.
Qed.

Lemma warnings_on_other (v : AstVar) (ds : list Diag) :
  (∀ d, In d ds → nodep d ≠ v) → warnings_on v ds = [].
Proof.
  intros Hall. unfold warnings_on. induction ds as [|d ds IH]; [done|].
  rewrite filter_cons_False by (apply Hall; by left).
  apply IH. intros d' Hd'. apply Hall. by right.
Qed.

Lemma warnings_on_app (v : AstVar) (ds1 ds2 : list Diag) :
  warnings_on v (ds1 ++ ds2) = (warnings_on v ds1 ++ warnings_on v ds2)%list.
Proof. apply filter_app. Qed.

Lemma reportAll_app (l1 l2 : list UndrivenVarEntry) :
  reportAll (l1 ++ l2) = (reportAll l1 ++ reportAll l2)%list.
Proof. apply flat_map_app. Qed.

Lemma warnings_on_foreign (v : AstVar) (l : list UndrivenVarEntry) :
  (∀ q x, l !! q = Some x → m_varp x ≠ v) → warnings_on v (reportAll l) = [].
Proof.
  induction l as [|x l IH]; intros Hall; [done|].
  change (reportAll (x :: l)) with ((reportViolations x).2 ++ reportAll l)%list.
  rewrite warnings_on_app, IH by (intros q y Hy; by apply (Hall (S q))).
  rewrite warnings_on_other; [done|].
  intros d Hd%reportViolations_nodep. rewrite Hd. by apply (Hall 0%nat).
Qed.

(** The warnings on a declaration are those of its one entry. *)
Lemma warnings_on_reportAll (st : UndrivenVisitor) (v : AstVar) (p : nat)
    (e : UndrivenVarEntry) :
  wf st → user1p st !! v = Some p → m_entryps st !! p = Some e →
  warnings_on v (reportAll (m_entryps st)) = (reportViolations e).2.
Proof.
  intros [H1 H2] Hp He.
  assert (m_varp e = v) as Hv.
  { destruct (H1 v p Hp) as (e0 & He0 & Hv0). congruence. }
  assert (∀ q x, q ≠ p → m_entryps st !! q = Some x → m_varp x ≠ v) as Hother.
  { intros q x Hne Hx Heq. specialize (H2 q x Hx). congruence. }
  rewrite <- (take_drop_middle (m_entryps st) p e He).
  change (e :: drop (S p) (m_entryps st))
    with ([e] ++ drop (S p) (m_entryps st))%list.
  rewrite !reportAll_app, !warnings_on_app.
  rewrite (warnings_on_foreign v (take p _)); cycle 1.
  { intros q x Hx. apply lookup_take_Some in Hx as [Hx Hq].
    apply (Hother q); [lia | done]. }
  rewrite (warnings_on_foreign v (drop _ _)); cycle 1.
  { intros q x Hx. rewrite lookup_drop in Hx.
    apply (Hother (S p + q)%nat); [lia | done]. }
  simpl. rewrite !app_nil_r.
  apply warnings_on_own. intros d Hd%reportViolations_nodep. congruence.
Qed.

Lemma warnings_on_absent (st : UndrivenVisitor) (v : AstVar) :
  wf st → user1p st !! v = None → warnings_on v (reportAll (m_entryps st)) = [].
Proof.
  intros [_ H2] Hnone. apply warnings_on_foreign.
  intros q x Hx Heq. specialize (H2 q x Hx). congruence.
Qed.

(** ** A whole-signal read settles the used side *)

Lemma used_whole_report (e : UndrivenVarEntry) (d : Diag) :
  m_usedWhole e = true → In d (reportViolations e).2 →
  code d = UNDRIVEN ∧
  (msg d = "Signal is not driven: " +:+ prettyName (m_varp e) ∨
   msg d = "Bits of signal are not driven: " +:+ prettyName (m_varp e)
           +:+ bitNames e FLAG_DRIVEN).
Proof.
  intros Hu. rewrite reportViolations_eq. case_match; [|done]. simpl.
  unfold testResults. rewrite promote_varp, !bitNames_promote.
  assert (m_usedWhole (promote e) = true) as ->.
  { rewrite promote_eq. simpl. by rewrite Hu, orb_true_r. }
  assert (anyUsed e = true) as -> by (unfold anyUsed; by rewrite Hu).
  destruct (m_drivenWhole (promote e)), (anyDriven e); simpl; intros Hin;
    repeat (destruct Hin as [<- | Hin];
            [split; [reflexivity | (by left) || (by right)]|]); done.
Qed.

Lemma run_whole_read (l : list Access) (v : AstVar) (st : UndrivenVisitor) :
  In (AWhole v false) l → run l init = Some st →
  ∃ p e, user1p st !! v = Some p ∧ m_entryps st !! p = Some e ∧
         m_usedWhole e = true.
Proof.
  intros (l1 & l2 & ->)%in_split. rewrite run_app.
  destruct (run l1 init) as [st1|] eqn:H1; simpl; [|done].
  change (visitVarRef v false st1) with (access (AWhole v false) st1).
  destruct (access (AWhole v false) st1) as [st2|] eqn:H2; simpl; [|done].
  intros H3.
  destruct (run_wf l1 init st1 wf_init H1) as [Hwf1 _].
  pose proof (access_wf _ _ _ Hwf1 H2) as Hwf2.
  destruct (access_lookup _ _ _ Hwf1 H2)
    as (p & e & e' & _ & _ & Hm & Hu & He & _).
  destruct (run_wf l2 st2 st Hwf2 H3) as [_ [Hxu Hxe]].
  destruct (Hxe p e' He) as (e'' & He'' & Hle).
  exists p, e''. split_and!; [by apply Hxu | done |].
  simpl in Hm. injection Hm as <-. by apply Hle.
Qed.

(** ** Signals known by their declaration alone *)

Lemma pristine_init (v : AstVar) : pristine v false init.
Proof.
  split; [done|]. intros p e Hp. simpl in Hp. by rewrite lookup_empty in Hp.
Qed.

Lemma method_decl_entry (v : AstVar) (b : bool) :
  method (ADecl v) (decl_entry v b) = Some (decl_entry v true).
Proof.
  unfold method, decl_entry, usedWhole, drivenWhole.
  by destruct (ext_driven v), (ext_used v), b.
Qed.

Lemma access_pristine (v : AstVar) (b : bool) (a : Access)
    (st st' : UndrivenVisitor) :
  wf st → pristine v b st → untouched v a → access a st = Some st' →
  pristine v (b || declares v a) st'.
Proof.
  intros Hwf [Hb Hpr] Hun Hacc.
  destruct (access_lookup a st st' Hwf Hacc)
    as (p & e & e' & Hcase & Hv & Hm & Hu & He & Hfu & Hfe & Hfe').
  destruct (decide (var_of a = v)) as [Heq | Hne].
  - destruct a as [v'|v' lv|v' lv lsb w]; simpl in Heq, Hun; try done.
    subst v'. simpl var_of in *. simpl declares.
    rewrite bool_decide_eq_true_2, orb_true_r by done.
    split; [by rewrite Hu|].
    intros p' e'' Hp' He''. rewrite Hu in Hp'. injection Hp' as <-.
    rewrite He in He''. injection He'' as <-.
    assert (e = decl_entry v b ∧ is_Some (new v)) as [-> Hnew].
    { destruct Hcase as [[Hp Hpe] | (Hnone & _ & Hnew)].
      - by apply (Hpr p).
      - destruct b; [destruct (Hb eq_refl); congruence|].
        split; [by apply new_decl_entry | eauto]. }
    rewrite method_decl_entry in Hm. by injection Hm as <-.
  - assert (declares v a = false) as ->.
    { destruct a; simpl in *; try done. by apply bool_decide_eq_false_2. }
    rewrite orb_false_r. rewrite <- (Hfu v) in Hb by done.
    split; [done|].
    intros p' e'' Hp' He''. rewrite Hfu in Hp' by done.
    apply (Hpr p'); [done|]. apply Hfe'; [|done].
    intros ->. destruct Hwf as [H1 _].
    destruct (H1 v p Hp') as (x & Hx & Hxv).
    destruct Hcase as [[_ Hpe] | (_ & -> & _)].
    + congruence.
    + apply lookup_lt_Some in Hx. lia.
Qed.

Lemma run_pristine (v : AstVar) (l : list Access) :
  Forall (untouched v) l →
  ∀ b st st', wf st → pristine v b st → run l st = Some st' →
              pristine v (b || existsb (declares v) l) st'.
Proof.
  induction 1 as [|a l Ha _ IH]; intros b st st' Hwf Hpr; simpl.
  - intros [= <-]. by rewrite orb_false_r.
  - destruct (access a st) as [st1|] eqn:Hacc; simpl; [|done].
    intros Hrun. rewrite orb_assoc.
    apply (IH _ st1); [by eapply access_wf | by eapply access_pristine | done].
Qed.

Lemma existsb_declares (v : AstVar) (l : list Access) :
  In (ADecl v) l → existsb (declares v) l = true.
Proof.
  intros Hin. apply existsb_exists. exists (ADecl v). split; [done|].
  simpl. by apply bool_decide_eq_true_2.
Qed.

(** The report on the entry of a declaration nothing else has touched. *)
Lemma decl_entry_report (v : AstVar) :
  isParam v = false → isGenVar v = false →
  0 < width v < 2 ^ 31 → is_Some (new v) →
  (reportViolations (decl_entry v true)).2 = decl_report v.
Proof.
  intros Hp Hg Hw [e0 Hnew].
  assert (2 <= Int32.mul (width v) FLAGS_PER_BIT) as Hn.
  { unfold new in Hnew. case_match eqn:Hneg; [done|].
    unfold Int32.mul, Int32.wrap, FLAGS_PER_BIT in *.
    Z.div_mod_to_equations. lia. }
  set (e := decl_entry v true).
  assert (Forall (λ f, f = false) (m_flags e)) as Hclear.
  { simpl. apply Forall_replicate. done. }
  assert (0 < nbits e)%nat as Hbits.
  { unfold nbits, e, decl_entry. cbn [m_flags]. rewrite length_replicate.
    apply Nat.div_str_pos. lia. }
  rewrite reportViolations_eq. simpl. rewrite Hp, Hg. simpl.
  unfold testResults. rewrite promote_varp.
  rewrite promote_eq. simpl.
  rewrite allUsed_all_clear, allDriven_all_clear by done. simpl.
  unfold anyUsed, anyDriven. simpl.
  rewrite !existsb_all_false by (intros b; by apply flag_at_all_clear).
  rewrite !orb_false_r. unfold decl_report.
  by destruct (ext_used v), (ext_driven v).
Qed.

(** ** Traversals that meet one declaration *)

Lemma access_single (v : AstVar) (e : UndrivenVarEntry) (a : Access) :
  var_of a = v →
  access a (single v e) = e' ← method a e; Some (single v e').
Proof.
  intros Hv. rewrite access_getEntryp; cycle 1.
  { intros p. rewrite Hv. unfold single; simpl.
    rewrite lookup_singleton_eq. intros [= <-]. eauto. }
  unfold getEntryp. rewrite Hv. unfold single at 1; simpl.
  rewrite lookup_singleton_eq. simpl. unfold call; simpl.
  by destruct (method a e).
Qed.

Lemma access_init (v : AstVar) (e0 : UndrivenVarEntry) (a : Access) :
  var_of a = v → new v = Some e0 →
  access a init = e' ← method a e0; Some (single v e').
Proof.
  intros Hv Hnew. rewrite access_getEntryp; cycle 1.
  { intros p. simpl. by rewrite lookup_empty. }
  unfold getEntryp. rewrite Hv. simpl. rewrite lookup_empty, Hnew. simpl.
  unfold call; simpl. destruct (method a e0); [|done]. simpl.
  unfold single. by rewrite insert_empty.
Qed.

Lemma run_single (v : AstVar) (e : UndrivenVarEntry) (l : list Access) :
  Forall (λ a, var_of a = v) l →
  run l (single v e) = e' ← methods l e; Some (single v e').
Proof.
  intros Hall. revert e. induction Hall as [|a l Ha _ IH]; intros e; simpl; [done|].
  change (match a with
          | ADecl v0 => visitVar v0 (single v e)
          | AWhole v0 lvalue => visitVarRef v0 lvalue (single v e)
          | ABits v0 lvalue lsb w => visitSelConst v0 lvalue lsb w (single v e)
          end) with (access a (single v e)).
  rewrite access_single by done.
  destruct (method a e) as [e1|]; simpl; [apply IH | done].
Qed.

Lemma run_init (v : AstVar) (e0 : UndrivenVarEntry) (a : Access) (l : list Access) :
  new v = Some e0 → Forall (λ a, var_of a = v) (a :: l) →
  run (a :: l) init = e' ← methods (a :: l) e0; Some (single v e').
Proof.
  intros Hnew Hall. apply Forall_cons in Hall as [Ha Hl].
  change (run (a :: l) init) with (st ← access a init; run l st).
  rewrite (access_init v e0) by done. simpl.
  destruct (method a e0) as [e1|]; simpl; [by apply run_single | done].
Qed.

Lemma undrivenAll_visit (u : gmap AstVar nat) (t : AstNode) :
  undrivenAll u t =
  st ← visit t init; Some (user1p st, reportAll (m_entryps st)).
Proof. reflexivity. Qed.

Lemma undrivenAll_single (u : gmap AstVar nat) (t : AstNode) (v : AstVar)
    (e0 e : UndrivenVarEntry) (a : Access) (l : list Access) :
  accesses t = a :: l → Forall (λ a, var_of a = v) (a :: l) →
  new v = Some e0 → methods (a :: l) e0 = Some e →
  undrivenAll u t = Some ({[ v := 0%nat ]}, (reportViolations e).2).
Proof.
  intros Hacc Hall Hnew Hm.
  rewrite undrivenAll_visit, visit_run, Hacc, (run_init v e0) by done.
  rewrite Hm. simpl. by rewrite app_nil_r.
Qed.

(** ** The pass on whole trees *)

(** C3 (as amended): an 8-bit signal with lsb offset 0 that is no port and
    not public, whose local bits 0 to 3 are driven through a constant
    bit-select and which is read as a whole, gets exactly one warning, of
    code UNDRIVEN and text "Bits of signal are not driven: ", the name, and
    the range: [4:7] for the ascending (little-endian) declaration, [7:4]
    for the descending one. *)
Theorem low_nibble_driven_report (v : AstVar) (u : gmap AstVar nat) :
  width v = 8 → basic_lsb v = 0 →
  isParam v = false → isGenVar v = false →
  ext_driven v = false → ext_used v = false →
  undrivenAll u (Examples.low_nibble_driven v) =
    Some ({[ v := 0%nat ]},
          [ {| code := UNDRIVEN; nodep := v;
               msg := "Bits of signal are not driven: " +:+ prettyName v +:+
                      (if basic_littleEndian v then "[4:7]" else "[7:4]") |} ]).
Proof.
  intros Hw Hlsb Hp Hg Hd Hu.
  pose (e0 := mkEntry v false false (replicate 16 false)).
  pose (e := Examples.low4_driven v).
  rewrite (undrivenAll_single u _ v e0 e (ADecl v) [ABits v true 0 4; AWhole v false]).
  - destruct v as [a n w p g i o sp srw srd l le]. simpl in *. subst.
    destruct le; reflexivity.
  - reflexivity.
  - repeat constructor.
  - unfold new. by rewrite Hw.
  - simpl. by rewrite Hd, Hu.
Qed.

Lemma low_nibble_driven_report_witness :
  undrivenAll ∅ (Examples.low_nibble_driven Examples.y8) =
    Some ({[ Examples.y8 := 0%nat ]},
          [ {| code := UNDRIVEN; nodep := Examples.y8;
               msg := "Bits of signal are not driven: top.y[4:7]" |} ]) ∧
  undrivenAll ∅ (Examples.low_nibble_driven Examples.x8) =
    Some ({[ Examples.x8 := 0%nat ]},
          [ {| code := UNDRIVEN; nodep := Examples.x8;
               msg := "Bits of signal are not driven: top.x[7:4]" |} ]).
Proof.
  split.
  - apply (low_nibble_driven_report Examples.y8 ∅); reflexivity.
  - apply (low_nibble_driven_report Examples.x8 ∅); reflexivity.
Defined.

(** C3 as stated fails: on the ascending declaration the one warning does
    not carry the range [7:4]. *)
Lemma ascending_range_is_not_7_4 :
  ∃ u ds, undrivenAll ∅ (Examples.low_nibble_driven Examples.y8) = Some (u, ds) ∧
          ds ≠ [ {| code := UNDRIVEN; nodep := Examples.y8;
                    msg := "Bits of signal are not driven: top.y[7:4]" |} ].
Proof.
  eexists _, _. split.
  - eapply (undrivenAll_single ∅ _ Examples.y8 _ _ (ADecl Examples.y8)
              [ABits Examples.y8 true 0 4; AWhole Examples.y8 false]);
      [reflexivity | repeat constructor | reflexivity | reflexivity].
  - vm_compute. by intros [= H].
Qed.

(** C6: [reportViolations] on a real signal returns the promoted entry and
    evaluates its table on it; the promotion sets a whole flag as soon as
    every bit has the flag of that kind; and a 1-bit signal driven through
    a constant bit-select at index 0 and read as a whole gets no warning. *)
Theorem lattice_join_at_finalize :
  (∀ e, isParam (m_varp e) = false → isGenVar (m_varp e) = false →
        reportViolations e =
          (promote e, testResults (promote e) (anyUsed e) (anyDriven e)) ∧
        ((∀ b, (b < nbits e)%nat → usedFlag e (Z.of_nat b) = true) →
         m_usedWhole (promote e) = true) ∧
        ((∀ b, (b < nbits e)%nat → drivenFlag e (Z.of_nat b) = true) →
         m_drivenWhole (promote e) = true)) ∧
  (∀ v u, width v = 1 →
          undrivenAll u (Examples.bit0_driven v) = Some ({[ v := 0%nat ]}, [])).
Proof.
  split.
  - intros e Hp Hg. split_and!.
    + by apply reportViolations_promotes.
    + apply promote_all_used.
    + apply promote_all_driven.
  - intros v u Hw.
    pose (e0 := mkEntry v false false (replicate 2 false)).
    pose (e := mkEntry v true (ext_driven v) [false; true]).
    rewrite (undrivenAll_single u _ v e0 e (ADecl v) [ABits v true 0 1; AWhole v false]).
    + f_equal. f_equal. rewrite reportViolations_eq.
      case_match; [|done]. simpl.
      unfold testResults.
      rewrite (promote_all_driven e); cycle 1.
      { intros b Hb. destruct b as [|b]; [done|]. vm_compute in Hb. lia. }
      assert (m_usedWhole (promote e) = true) as ->; [|done].
      rewrite promote_eq. cbn [m_usedWhole e]. apply orb_true_r.
    + reflexivity.
    + repeat constructor.
    + unfold new. by rewrite Hw.
    + simpl. unfold e. by destruct (ext_driven v), (ext_used v).
Qed.

Lemma lattice_join_at_finalize_witness :
  m_drivenWhole (promote (mkEntry Examples.b1 true false [false; true])) = true ∧
  undrivenAll ∅ (Examples.bit0_driven Examples.b1) =
    Some ({[ Examples.b1 := 0%nat ]}, []).
Proof.
  split.
  - destruct (proj1 lattice_join_at_finalize
                (mkEntry Examples.b1 true false [false; true])
                eq_refl eq_refl) as (_ & _ & Hdriven).
    apply Hdriven.
    intros b Hb. destruct b as [|b]; [reflexivity|]. vm_compute in Hb. lia.
  - apply (proj2 lattice_join_at_finalize Examples.b1 ∅). reflexivity.
Defined.

Lemma undrivenAll_inv (u u' : gmap AstVar nat) (t : AstNode) (ds : list Diag) :
  undrivenAll u t = Some (u', ds) →
  ∃ st, visit t init = Some st ∧ u' = user1p st ∧ ds = reportAll (m_entryps st).
Proof.
  rewrite undrivenAll_visit. destruct (visit t init) as [st|]; simpl; [|done].
  intros [= <- <-]. eauto.
Qed.

Lemma visit_wf (t : AstNode) (st : UndrivenVisitor) :
  visit t init = Some st → wf st.
Proof.
  rewrite visit_run. intros H.
  by destruct (run_wf (accesses t) init st wf_init H).
Qed.

(** C8: when the traversal reaches an array select with a read reference
    to [v] among its operands, the entry of [v] ends up wholly used, and
    every warning on [v] is on the driven side: code UNDRIVEN, text
    "Signal is not driven" or "Bits of signal are not driven" -- never
    "Bits of signal are not used". *)
Theorem array_read_marks_whole (t : AstNode) (cs : list AstNode) (v : AstVar)
    (u u' : gmap AstVar nat) (ds : list Diag) :
  visited t (ArraySel cs) →
  In (VarRef v false) cs →
  undrivenAll u t = Some (u', ds) →
  (∃ st p e, visit t init = Some st ∧ user1p st !! v = Some p ∧
             m_entryps st !! p = Some e ∧ m_usedWhole e = true) ∧
  (∀ d, In d ds → nodep d = v →
        code d = UNDRIVEN ∧
        (msg d = "Signal is not driven: " +:+ prettyName v ∨
         ∃ r, msg d = "Bits of signal are not driven: " +:+ prettyName v +:+ r)).
Proof.
  intros Hsel Hin (st & Hvisit & -> & ->)%undrivenAll_inv.
  assert (visited t (VarRef v false)) as Href.
  { eapply visited_trans; [exact Hsel|].
    eapply visited_below; [exact Hin | constructor]. }
  pose proof (visit_wf t st Hvisit) as Hwf.
  apply visited_VarRef in Href.
  rewrite visit_run in Hvisit.
  destruct (run_whole_read _ v st Href Hvisit) as (p & e & Hp & He & Hu).
  split.
  - exists st, p, e. by rewrite visit_run.
  - intros d Hd Hv.
    assert (In d (warnings_on v (reportAll (m_entryps st)))) as Hd'.
    { apply list_elem_of_In, list_elem_of_filter. split; [done|].
      by apply list_elem_of_In. }
    rewrite (warnings_on_reportAll st v p e) in Hd' by done.
    assert (m_varp e = v) as Hve.
    { destruct Hwf as [H1 _]. destruct (H1 v p Hp) as (e0 & He0 & Hv0). congruence. }
    destruct (used_whole_report e d Hu Hd') as [Hcode Hmsg].
    rewrite Hve in Hmsg. split; [done|].
    destruct Hmsg as [Hmsg | Hmsg]; eauto.
Qed.

Lemma array_read_marks_whole_witness :
  ∃ st p e, visit Examples.array_read init = Some st ∧
            user1p st !! Examples.mem = Some p ∧
            m_entryps st !! p = Some e ∧ m_usedWhole e = true.
Proof.
  refine (proj1 (array_read_marks_whole Examples.array_read
                   [VarRef Examples.mem false; Node []]
                   Examples.mem ∅ {[ Examples.mem := 0%nat ]}
                   (reportViolations (usedWhole (decl_entry Examples.mem false))).2
                   _ _ _)).
  - eapply visited_below; [right; left; reflexivity|].
    eapply visited_below; [left; reflexivity | constructor].
  - left. reflexivity.
  - apply (undrivenAll_single ∅ _ Examples.mem (decl_entry Examples.mem false)
             (usedWhole (decl_entry Examples.mem false)) (ADecl Examples.mem)
             [AWhole Examples.mem false]);
      [reflexivity | repeat constructor | reflexivity | reflexivity].
Defined.

(** C5 (as amended): let [v] be a signal of at least one bit, neither
    parameter nor generate variable, whose declaration the traversal
    visits and all of whose references sit inside coverage or trace nodes.
    Then these references set no flag: the entry of [v] is the one its
    declaration alone produces.  The pass reports [v] accordingly:
    "Signal is not used" (UNUSED) when the declaration is externally
    driven only, "Signal is not driven, nor used" (UNDRIVEN) when it is
    neither driven nor used externally, "Signal is not driven" (UNDRIVEN)
    when it is externally used only, and nothing when it is both. *)
Theorem instrumentation_reads_do_not_count (t : AstNode) (v : AstVar)
    (cs : list AstNode) (u u' : gmap AstVar nat) (ds : list Diag) :
  instrumentation_only v t →
  visited t (Var v cs) →
  isParam v = false → isGenVar v = false →
  0 < width v < 2 ^ 31 →
  undrivenAll u t = Some (u', ds) →
  (∃ st p, visit t init = Some st ∧ user1p st !! v = Some p ∧
           m_entryps st !! p = Some (decl_entry v true)) ∧
  warnings_on v ds = decl_report v.
Proof.
  intros Honly Hdecl Hp Hg Hw (st & Hvisit & -> & ->)%undrivenAll_inv.
  pose proof (visit_wf t st Hvisit) as Hwf.
  apply instrumentation_only_untouched in Honly.
  apply visited_Var, existsb_declares in Hdecl.
  pose proof Hvisit as Hrun. rewrite visit_run in Hrun.
  pose proof (run_pristine v _ Honly false init st wf_init (pristine_init v) Hrun)
    as [Hsome Hentry].
  rewrite Hdecl in Hsome, Hentry. simpl in Hsome, Hentry.
  destruct (Hsome eq_refl) as [p Hpv].
  destruct Hwf as [H1 H2]. destruct (H1 v p Hpv) as (e & He & Hev).
  destruct (Hentry p e Hpv He) as [-> Hnew].
  split; [by exists st, p|].
  rewrite (warnings_on_reportAll st v p (decl_entry v true)) by done.
  by apply decl_entry_report.
Qed.

Lemma instrumentation_reads_do_not_count_witness :
  (∃ st p, visit Examples.covered_i8 init = Some st ∧
           user1p st !! Examples.i8 = Some p ∧
           m_entryps st !! p = Some (decl_entry Examples.i8 true)) ∧
  warnings_on Examples.i8
    [ {| code := UNUSED; nodep := Examples.i8; msg := "Signal is not used: top.i" |} ]
  = [ {| code := UNUSED; nodep := Examples.i8; msg := "Signal is not used: top.i" |} ].
Proof.
  apply (instrumentation_reads_do_not_count Examples.covered_i8 Examples.i8 []
           ∅ {[ Examples.i8 := 0%nat ]}).
  - intros lv Hout.
    inversion Hout as [|? c ? _ Hc Hout']; subst. simpl in Hc.
    destruct Hc as [<- | [<- | []]].
    + inversion Hout' as [|? c ? _ Hc _]; subst. destruct Hc.
    + inversion Hout' as [|? c ? Hi _ _]; subst. discriminate Hi.
  - eapply visited_below; [left; reflexivity | constructor].
  - reflexivity.
  - reflexivity.
  - vm_compute. split; reflexivity.
  - apply (undrivenAll_single ∅ _ Examples.i8 (decl_entry Examples.i8 false)
             (decl_entry Examples.i8 true) (ADecl Examples.i8) []);
      [reflexivity | repeat constructor | reflexivity | reflexivity].
Defined.

(** C5 as stated fails: a wire that only a coverage point reads is
    reported as "not driven, nor used" under UNDRIVEN; no UNUSED warning
    is issued. *)
Lemma coverage_only_wire_is_undriven :
  instrumentation_only Examples.x8 Examples.covered_x8 ∧
  undrivenAll ∅ Examples.covered_x8 =
    Some ({[ Examples.x8 := 0%nat ]},
          [ {| code := UNDRIVEN; nodep := Examples.x8;
               msg := "Signal is not driven, nor used: top.x" |} ]).
Proof.
  split.
  - intros lv Hout.
    inversion Hout as [|? c ? _ Hc Hout']; subst. simpl in Hc.
    destruct Hc as [<- | [<- | []]].
    + inversion Hout' as [|? c ? _ Hc _]; subst. destruct Hc.
    + inversion Hout' as [|? c ? Hi _ _]; subst. discriminate Hi.
  - apply (undrivenAll_single ∅ _ Examples.x8 (decl_entry Examples.x8 false)
             (decl_entry Examples.x8 true) (ADecl Examples.x8) []);
      [reflexivity | repeat constructor | reflexivity | reflexivity].
Qed.

(** C9: a second run on the same tree, started from whatever the first
    run left in the annotation slots, clears them and issues the same
    warnings. *)
Theorem undrivenAll_twice (t : AstNode) (u0 u1 : gmap AstVar nat) (ds : list Diag) :
  undrivenAll u0 t = Some (u1, ds) →
  undrivenAll u1 t = Some (u1, ds).
Proof. unfold undrivenAll, user1ClearTree. done. Qed.

Lemma undrivenAll_twice_witness :
  undrivenAll {[ Examples.y8 := 0%nat ]} (Examples.low_nibble_driven Examples.y8) =
    Some ({[ Examples.y8 := 0%nat ]},
          [ {| code := UNDRIVEN; nodep := Examples.y8;
               msg := "Bits of signal are not driven: top.y[4:7]" |} ]).
Proof.
  apply (undrivenAll_twice (Examples.low_nibble_driven Examples.y8) ∅).
  eapply (undrivenAll_single ∅ _ Examples.y8 _
            (Examples.low4_driven Examples.y8)
            (ADecl Examples.y8)
            [ABits Examples.y8 true 0 4; AWhole Examples.y8 false]);
    [reflexivity | repeat constructor | reflexivity | reflexivity].
Defined.

(** Why the slots are cleared: what a run leaves in them points at entries
    its destructor has deleted.  A traversal that trusted them would take
    the stale pointer for the entry of the declaration and call a method
    through it. *)
Lemma stale_annotation_dangles :
  visit (Examples.low_nibble_driven Examples.y8)
        {| user1p := {[ Examples.y8 := 0%nat ]}; m_entryps := [] |} = None.
Proof. reflexivity. Qed.

(** * Further properties of the code *)

(** ** The range text, in general *)

Section BitNamesRuns.

Variables (e : UndrivenVarEntry) (index : Z).

Lemma bitNames_body_idle (b : nat) (bits : string) (msb : Z) :
  flag_of e index b = true → bitNames_body e index (Z.of_nat b) (bits, false, msb) = (bits, false, msb).
Proof.
  unfold flag_of. intros Hb. unfold bitNames_body. by rewrite Hb, andb_false_r.
Qed.

Lemma bitNames_body_end (bits : string) (msb : Z) :
  bitNames_body e index (-1) (bits, false, msb) = (bits, false, msb).
Proof. reflexivity. Qed.

Lemma bitNames_body_open (b : nat) (bits : string) (msb : Z) :
  flag_of e index b = false →
  bitNames_body e index (Z.of_nat b) (bits, false, msb) = (bits, true, Z.of_nat b).
Proof.
  unfold flag_of. intros Hb. unfold bitNames_body. rewrite Hb.
  by assert ((0 <=? Z.of_nat b) = true) as -> by (apply Z.leb_le; lia).
Qed.

Lemma bitNames_body_inside (b : nat) (bits : string) (msb : Z) :
  flag_of e index b = false →
  bitNames_body e index (Z.of_nat b) (bits, true, msb) = (bits, true, msb).
Proof.
  unfold flag_of. intros Hb. unfold bitNames_body. rewrite Hb.
  by assert ((0 <=? Z.of_nat b) = true) as -> by (apply Z.leb_le; lia).
Qed.

(** A run closes at the first set bit below it, or at the extra
    iteration [bit = -1]. *)
Lemma bitNames_body_close (bit : Z) (msb : Z) :
  -1 <= bit < 2 ^ 31 - 1 →
  (0 <= bit → flag_at e (Z.to_nat (bit * FLAGS_PER_BIT + index)) = true) →
  bitNames_body e index bit ("", true, msb) =
    (run_text (m_varp e) (bit + 1) msb, false, msb).
Proof.
  intros Hbit Hset. unfold bitNames_body.
  replace ((0 <=? bit) && negb _) with false; cycle 1.
  { destruct (0 <=? bit) eqn:H0; [|done]. rewrite Hset by lia. done. }
  rewrite add_small by lia. simpl String.eqb. cbv iota.
  unfold run_text. rewrite !append_nil_l. done.
Qed.

Lemma bitNames_loop_idle (k : nat) (bits : string) (msb : Z) :
  (∀ b, (b < k)%nat → flag_of e index b = true) →
  bitNames_loop e index k (bits, false, msb) = (bits, false, msb).
Proof.
  induction k as [|j IH]; intros Hall; cbn [bitNames_loop].
  - apply bitNames_body_end.
  - rewrite bitNames_body_idle by (apply Hall; lia). apply IH.
    intros b Hb. apply Hall. lia.
Qed.

Lemma bitNames_loop_inside (lo k : nat) (msb : Z) :
  (lo <= k)%nat →
  (∀ b, (lo <= b < k)%nat → flag_of e index b = false) →
  bitNames_loop e index k ("", true, msb) = bitNames_loop e index lo ("", true, msb).
Proof.
  induction 1 as [|j Hle IH]; intros Hall; [done|]. cbn [bitNames_loop].
  rewrite bitNames_body_inside by (apply Hall; lia). apply IH.
  intros b Hb. apply Hall. lia.
Qed.

Lemma bitNames_loop_above (hi k : nat) :
  (hi < k)%nat →
  (∀ b, (hi < b < k)%nat → flag_of e index b = true) →
  bitNames_loop e index k ("", false, 0) =
  bitNames_loop e index (S hi) ("", false, 0).
Proof.
  induction 1 as [|j Hle IH]; intros Hall; [done|]. cbn [bitNames_loop].
  rewrite bitNames_body_idle by (apply Hall; lia). apply IH.
  intros b Hb. apply Hall. lia.
Qed.

Lemma bitNames_loop_close (lo : nat) (msb : Z) :
  Z.of_nat lo < 2 ^ 31 →
  (∀ b, (b < lo)%nat → flag_of e index b = true) →
  bitNames_loop e index lo ("", true, msb) =
    (run_text (m_varp e) (Z.of_nat lo) msb, false, msb).
Proof.
  intros Hlo Hall. destruct lo as [|j]; cbn [bitNames_loop].
  - by rewrite bitNames_body_close by lia.
  - rewrite bitNames_body_close; cycle 1.
    { lia. }
    { intros _. apply (Hall j). lia. }
    rewrite bitNames_loop_idle by (intros b Hb; apply Hall; lia).
    do 3 f_equal. lia.
Qed.

End BitNamesRuns.

(** X3: the range text is the empty pair of brackets exactly when every
    bit has the flag of the selected kind. *)
Theorem bitNames_empty_iff (e : UndrivenVarEntry) (index : Z) :
  bitNames e index = "[]" ↔
  ∀ b, (b < nbits e)%nat → flag_of e index b = true.
Proof.
  split.
  - intros Hempty b Hb. destruct (flag_of e index b) eqn:Hflag; [done|].
    by destruct (bitNames_not_empty e index b Hb Hflag).
  - intros Hall. unfold bitNames.
    by rewrite bitNames_loop_idle.
Qed.

(** X4: when the bits without the flag are exactly the local bits
    [lo..hi], the range text is that one run in brackets: the declared
    index alone for a single bit, otherwise the two declared indices,
    low first for a little-endian declaration and high first for the
    others. *)
Theorem bitNames_one_run (e : UndrivenVarEntry) (index : Z) (lo hi : nat) :
  (lo <= hi < nbits e)%nat →
  Z.of_nat (nbits e) < 2 ^ 31 →
  (∀ b, (b < nbits e)%nat → flag_of e index b = false ↔ (lo <= b <= hi)%nat) →
  bitNames e index =
    "[" +:+ run_text (m_varp e) (Z.of_nat lo) (Z.of_nat hi) +:+ "]".
Proof.
  intros Hrange Hfit Hflags.
  assert (∀ b, (b < nbits e)%nat → ¬ (lo <= b <= hi)%nat → flag_of e index b = true)
    as Hset.
  { intros b Hb Hout. destruct (flag_of e index b) eqn:Hflag; [done|].
    by apply Hflags in Hflag. }
  unfold bitNames.
  rewrite (bitNames_loop_above e index hi) by (try (intros b Hb; apply Hset); lia).
  cbn [bitNames_loop].
  rewrite bitNames_body_open by (apply Hflags; lia).
  rewrite (bitNames_loop_inside e index lo hi)
    by (try (intros b Hb; apply Hflags); lia).
  rewrite bitNames_loop_close by (try (intros b Hb; apply Hset); lia).
  done.
Qed.

Lemma bitNames_one_run_witness :
  bitNames (Examples.low7_used Examples.a10) FLAG_USED =
    "[" +:+ run_text Examples.a10 7 9 +:+ "]".
Proof.
  apply (bitNames_one_run (Examples.low7_used Examples.a10) FLAG_USED 7 9).
  - vm_compute. lia.
  - vm_compute. reflexivity.
  - intros b Hb. vm_compute in Hb.
    do 10 (destruct b as [|b]; [vm_compute; split; (done || lia)|]). lia.
Defined.

(** ** Accesses and the nodes they come from *)

Lemma castConst_Some (n : AstNode) (num : V3Number) :
  castConst n = Some num → n = Const num.
Proof. destruct n; simpl; congruence. Qed.

Lemma iterated_Sel (w : Z) (f l wd : AstNode) :
  precise f l = false → iterated (Sel w f l wd) = [f; l; wd].
Proof.
  unfold precise. simpl. destruct (castVarRef f); [|done].
  destruct (castConst l); [|done]. by intros ->.
Qed.

Lemma accesses_Sel_precise (w : Z) (v : AstVar) (lvalue : bool) (num : V3Number)
    (wd : AstNode) :
  isFourState num = false →
  accesses (Sel w (VarRef v lvalue) (Const num) wd) =
    [ABits v lvalue (Int32.wrap (toUInt num)) w].
Proof. intros H. simpl. by rewrite H. Qed.

Lemma accesses_Sel_fallback (w : Z) (f l wd : AstNode) :
  precise f l = false →
  accesses (Sel w f l wd) = (accesses f ++ accesses l ++ accesses wd)%list.
Proof.
  unfold precise. simpl. destruct (castVarRef f) as [[v lv]|]; [|done].
  destruct (castConst l); [|done]. by intros ->.
Qed.

Lemma origin_below (t c : AstNode) (a : Access) :
  In c (iterated t) → origin c a → origin t a.
Proof.
  intros Hc. destruct a as [v|v lv|v lv lsb w]; simpl.
  - intros [cs H]. exists cs. by eapply visited_below.
  - intros H. by eapply visited_below.
  - intros (num & wd & H & ?). exists num, wd. split; [|done].
    by eapply visited_below.
Qed.

Lemma accesses_origin (t : AstNode) : ∀ a, In a (accesses t) → origin t a.
Proof.
  assert (Hlist : ∀ t0 cs, iterated t0 = cs →
            Forall (λ c, ∀ a, In a (accesses c) → origin c a) cs →
            ∀ a, In a (accesses_list cs) → origin t0 a).
  { intros t0 cs Hit Hall a (c & Hc & Ha)%accesses_list_In.
    rewrite List.Forall_forall in Hall.
    apply (origin_below t0 c); [by rewrite Hit | by apply Hall]. }
  induction t as [v cs IH|cs IH|w f l wd IHf IHl IHwd|v lv
                 |cs _|cs _|cs _|cs _|cs _|num|cs IH]
    using AstNode_induction; intros a; try (by simpl).
  - rewrite accesses_Var. intros [<- | Ha].
    + exists cs. constructor.
    + by apply (Hlist (Var v cs) cs).
  - rewrite accesses_ArraySel. by apply (Hlist (ArraySel cs) cs).
  - destruct (precise f l) eqn:Hp.
    + unfold precise in Hp.
      destruct (castVarRef f) as [[v lv]|] eqn:Hf; [|done].
      destruct (castConst l) as [num|] eqn:Hl; [|done].
      apply castVarRef_Some in Hf as ->. apply castConst_Some in Hl as ->.
      apply negb_true_iff in Hp.
      rewrite accesses_Sel_precise by done. intros [<- | []].
      exists num, wd. split; [constructor | done].
    + rewrite accesses_Sel_fallback by done.
      intros Ha.
      apply (Hlist (Sel w f l wd) [f; l; wd]).
      * by apply iterated_Sel.
      * repeat constructor; done.
      * simpl. by rewrite app_nil_r.
  - simpl. intros [<- | []]. constructor.
  - rewrite accesses_Node. by apply (Hlist (Node cs) cs).
Qed.

Lemma origin_met (t : AstNode) (a : Access) : origin t a → met t (var_of a).
Proof.
  destruct a as [v|v lv|v lv lsb w]; simpl; unfold met.
  - eauto.
  - eauto.
  - intros (num & wd & H & Hf & _). right. right. by exists w, lv, num, wd.
Qed.

(** ** Coverage and trace nodes are opaque *)

Lemma castVarRef_prune (n : AstNode) : castVarRef (prune n) = castVarRef n.
Proof. by destruct n. Qed.

Lemma castConst_prune (n : AstNode) : castConst (prune n) = castConst n.
Proof. by destruct n. Qed.

Lemma accesses_prune (t : AstNode) : accesses (prune t) = accesses t.
Proof.
  assert (Hlist : ∀ cs, Forall (λ c, accesses (prune c) = accesses c) cs →
                  accesses_list (prune_list cs) = accesses_list cs).
  { induction 1 as [|c cs Hc _ IH]; simpl; [done|]. by rewrite Hc, IH. }
  induction t as [v cs IH|cs IH|w f l wd IHf IHl IHwd|v lv
                 |cs _|cs _|cs _|cs _|cs _|num|cs IH]
    using AstNode_induction; try reflexivity.
  - change (prune (Var v cs)) with (Var v (prune_list cs)).
    rewrite !accesses_Var. by rewrite Hlist.
  - change (prune (ArraySel cs)) with (ArraySel (prune_list cs)).
    rewrite !accesses_ArraySel. by apply Hlist.
  - change (prune (Sel w f l wd)) with (Sel w (prune f) (prune l) (prune wd)).
    simpl. rewrite castVarRef_prune, castConst_prune, IHf, IHl, IHwd. done.
  - change (prune (Node cs)) with (Node (prune_list cs)).
    rewrite !accesses_Node. by apply Hlist.
Qed.

(** X7: what lies below coverage and trace nodes has no influence on the
    pass: two trees that are equal once these subtrees are cut off get the
    same annotations and the same warnings. *)
Theorem instrumentation_is_opaque (t1 t2 : AstNode) (u1 u2 : gmap AstVar nat) :
  prune t1 = prune t2 → undrivenAll u1 t1 = undrivenAll u2 t2.
Proof.
  intros Heq. rewrite !undrivenAll_visit, !visit_run.
  by rewrite <- (accesses_prune t1), <- (accesses_prune t2), Heq.
Qed.

Lemma instrumentation_is_opaque_witness :
  undrivenAll ∅ Examples.covered_x8 =
  undrivenAll ∅ (Node [Var Examples.x8 [];
                       CoverInc [Sel 4 (VarRef Examples.x8 true)
                                   (Examples.const 0) (Examples.const 4)]]).
Proof. apply instrumentation_is_opaque. reflexivity. Defined.

(** ** What an access leaves behind *)

(** The effect of an access is still there at the end of the run. *)
Lemma run_In (l : list Access) (a : Access) (st0 st : UndrivenVisitor) :
  wf st0 → In a l → run l st0 = Some st →
  ∃ p e e0 e1,
    user1p st !! var_of a = Some p ∧ m_entryps st !! p = Some e ∧
    method a e0 = Some e1 ∧ entry_le e1 e.
Proof.
  intros Hwf0 (l1 & l2 & ->)%in_split. rewrite run_app.
  destruct (run l1 st0) as [st1|] eqn:H1; simpl; [|done].
  change (match a with
          | ADecl v => visitVar v st1
          | AWhole v lvalue => visitVarRef v lvalue st1
          | ABits v lvalue lsb w => visitSelConst v lvalue lsb w st1
          end) with (access a st1).
  destruct (access a st1) as [st2|] eqn:H2; simpl; [|done].
  intros H3.
  destruct (run_wf l1 st0 st1 Hwf0 H1) as [Hwf1 _].
  pose proof (access_wf _ _ _ Hwf1 H2) as Hwf2.
  destruct (access_lookup _ _ _ Hwf1 H2)
    as (p & e0 & e1 & _ & _ & Hm & Hu & He & _).
  destruct (run_wf l2 st2 st Hwf2 H3) as [_ [Hxu Hxe]].
  destruct (Hxe p e1 He) as (e & He' & Hle).
  exists p, e, e0, e1. split_and!; auto.
Qed.

(** Every entry was made for a declaration some access names. *)
Lemma run_entry_origin (l : list Access) :
  ∀ st0 st p e, wf st0 → run l st0 = Some st → m_entryps st !! p = Some e →
    is_Some (m_entryps st0 !! p) ∨ ∃ a, In a l ∧ var_of a = m_varp e.
Proof.
  induction l as [|a l IH]; intros st0 st p e Hwf0; simpl.
  - intros [= <-] Hp. left. eauto.
  - destruct (access a st0) as [st1|] eqn:Hacc; simpl; [|done].
    intros Hrun Hp.
    pose proof (access_wf _ _ _ Hwf0 Hacc) as Hwf1.
    destruct (IH st1 st p e Hwf1 Hrun Hp) as [[e1 Hp1] | (a' & Ha' & Hv')].
    + destruct (access_lookup _ _ _ Hwf0 Hacc)
        as (pa & ea & ea' & _ & Hva & Hm & Hu & He & _ & _ & Hfe').
      destruct (decide (p = pa)) as [-> | Hne].
      * right. exists a. split; [by left|].
        destruct (run_wf l st1 st Hwf1 Hrun) as [_ [_ Hxe]].
        destruct (Hxe pa ea' He) as (e' & He' & Hv & _).
        apply method_le in Hm as [Hvm _]. congruence.
      * left. exists e1. by apply Hfe'.
    + right. exists a'. split; [by right | done].
Qed.

Lemma warnings_on_cases (st : UndrivenVisitor) (v : AstVar) :
  wf st →
  warnings_on v (reportAll (m_entryps st)) = [] ∨
  ∃ p e, user1p st !! v = Some p ∧ m_entryps st !! p = Some e ∧ m_varp e = v ∧
         warnings_on v (reportAll (m_entryps st)) = (reportViolations e).2.
Proof.
  intros Hwf. destruct (user1p st !! v) as [p|] eqn:Hp.
  - right. destruct Hwf as [H1 H2]. destruct (H1 v p Hp) as (e & He & Hv).
    exists p, e. split_and!; try done.
    by apply (warnings_on_reportAll st v p e).
  - left. by apply warnings_on_absent.
Qed.

Lemma In_warnings_on (v : AstVar) (ds : list Diag) (d : Diag) :
  In d (warnings_on v ds) ↔ In d ds ∧ nodep d = v.
Proof.
  unfold warnings_on. rewrite <- !list_elem_of_In, list_elem_of_filter. tauto.
Qed.

(** ** The decision table, by side *)

Lemma driven_whole_report (e : UndrivenVarEntry) (d : Diag) :
  m_drivenWhole e = true → In d (reportViolations e).2 → code d = UNUSED.
Proof.
  intros Hd. rewrite reportViolations_eq. case_match; [|done]. simpl.
  unfold testResults.
  assert (m_drivenWhole (promote e) = true) as ->.
  { rewrite promote_eq. simpl. by rewrite Hd, orb_true_r. }
  assert (anyDriven e = true) as -> by (unfold anyDriven; by rewrite Hd).
  destruct (m_usedWhole (promote e)), (anyUsed e); simpl; intros Hin;
    repeat (destruct Hin as [<- | Hin]; [reflexivity|]); done.
Qed.

Lemma report_side (e : UndrivenVarEntry) (lvalue : bool) (d : Diag) :
  (if lvalue then m_drivenWhole e else m_usedWhole e) = true →
  In d (reportViolations e).2 → code d = other_side lvalue.
Proof.
  destruct lvalue; simpl.
  - apply driven_whole_report.
  - intros Hu Hd. by destruct (used_whole_report e d Hu Hd).
Qed.

Lemma report_codes (e : UndrivenVarEntry) :
  code <$> (reportViolations e).2 ∈
    [ []; [UNUSED]; [UNDRIVEN]; [UNUSED; UNDRIVEN] ].
Proof.
  rewrite reportViolations_eq. case_match; [|by left]. simpl.
  unfold testResults.
  destruct (m_usedWhole (promote e)), (m_drivenWhole (promote e)),
    (anyUsed e), (anyDriven e); simpl;
    repeat (first [by left | right]).
Qed.

Lemma report_skipped (e : UndrivenVarEntry) :
  isParam (m_varp e) || isGenVar (m_varp e) = true → (reportViolations e).2 = [].
Proof.
  intros H. rewrite reportViolations_eq.
  by destruct (isParam (m_varp e)), (isGenVar (m_varp e)).
Qed.

(** A whole reference to [v] among the accesses settles its side. *)
Lemma run_reference_side (l : list Access) (v : AstVar) (lvalue : bool)
    (st : UndrivenVisitor) (d : Diag) :
  In (AWhole v lvalue) l → run l init = Some st →
  In d (reportAll (m_entryps st)) → nodep d = v →
  code d = other_side lvalue.
Proof.
  intros Hin Hrun Hd Hv.
  destruct (run_wf l init st wf_init Hrun) as [Hwf _].
  destruct (run_In l _ init st wf_init Hin Hrun)
    as (p & e & e0 & e1 & Hp & He & Hm & Hle).
  simpl in Hp, Hm. injection Hm as <-.
  assert (In d (warnings_on v (reportAll (m_entryps st)))) as Hd'
    by (by apply In_warnings_on).
  rewrite (warnings_on_reportAll st v p e) in Hd' by done.
  apply (report_side e lvalue d); [|done].
  destruct Hle as (_ & Hu & Hdr & _). destruct lvalue; auto.
Qed.

(** ** Sample runs *)

Lemma visit_single (t : AstNode) (v : AstVar) (e0 e : UndrivenVarEntry)
    (a : Access) (l : list Access) :
  accesses t = a :: l → Forall (λ a, var_of a = v) (a :: l) →
  new v = Some e0 → methods (a :: l) e0 = Some e →
  visit t init = Some (single v e).
Proof.
  intros Hacc Hall Hnew Hm.
  rewrite visit_run, Hacc, (run_init v e0) by done. by rewrite Hm.
Qed.

Lemma run_low_nibble_x8 :
  undrivenAll ∅ (Examples.low_nibble_driven Examples.x8) =
    Some ({[ Examples.x8 := 0%nat ]}, [Samples.x8_bits_undriven]).
Proof.
  apply (undrivenAll_single ∅ _ Examples.x8 (decl_entry Examples.x8 false)
           (Examples.low4_driven Examples.x8) (ADecl Examples.x8)
           [ABits Examples.x8 true 0 4; AWhole Examples.x8 false]);
    [reflexivity | repeat constructor | reflexivity | reflexivity].
Qed.

Lemma run_covered_i8 :
  undrivenAll ∅ Examples.covered_i8 =
    Some ({[ Examples.i8 := 0%nat ]}, [Samples.i8_unused]).
Proof.
  apply (undrivenAll_single ∅ _ Examples.i8 (decl_entry Examples.i8 false)
           (decl_entry Examples.i8 true) (ADecl Examples.i8) []);
    [reflexivity | repeat constructor | reflexivity | reflexivity].
Qed.

Lemma run_read_x8_at_x :
  undrivenAll ∅ Samples.read_x8_at_x =
    Some ({[ Examples.x8 := 0%nat ]}, [Samples.x8_undriven]).
Proof.
  apply (undrivenAll_single ∅ _ Examples.x8 (decl_entry Examples.x8 false)
           (usedWhole (decl_entry Examples.x8 false)) (ADecl Examples.x8)
           [AWhole Examples.x8 false]);
    [reflexivity | repeat constructor | reflexivity | reflexivity].
Qed.

Lemma run_only_p8 :
  undrivenAll ∅ Samples.only_p8 = Some ({[ Samples.p8 := 0%nat ]}, []).
Proof.
  apply (undrivenAll_single ∅ _ Samples.p8 (decl_entry Samples.p8 false)
           (decl_entry Samples.p8 true) (ADecl Samples.p8) []);
    [reflexivity | repeat constructor | reflexivity | reflexivity].
Qed.

(** ** The state of the visitor *)

(** X5: a traversal started in a well-formed state ends in one, and only
    adds to it: annotations and entries stay where they are, every entry
    keeps its declaration and its size, and no whole flag and no bit flag
    that was set is cleared. *)
Theorem visit_monotone (t : AstNode) (st st' : UndrivenVisitor) :
  wf st → visit t st = Some st' → wf st' ∧ extends st st'.
Proof. intros Hwf. rewrite visit_run. by apply run_wf. Qed.

Lemma visit_monotone_witness :
  wf (single Examples.x8 (decl_entry Examples.x8 true)) ∧
  extends init (single Examples.x8 (decl_entry Examples.x8 true)).
Proof.
  apply (visit_monotone Examples.covered_x8 init _ wf_init).
  apply (visit_single _ Examples.x8 (decl_entry Examples.x8 false) _
           (ADecl Examples.x8) []);
    [reflexivity | repeat constructor | reflexivity | reflexivity].
Defined.

(** X6: at the end of the traversal no two entries track the same
    declaration, and the annotation of a declaration is the position of
    the entry that tracks it. *)
Theorem one_entry_per_declaration (t : AstNode) (st : UndrivenVisitor) :
  visit t init = Some st →
  NoDup (m_varp <$> m_entryps st) ∧
  (∀ v p, user1p st !! v = Some p ↔
          ∃ e, m_entryps st !! p = Some e ∧ m_varp e = v).
Proof.
  intros Hvisit. destruct (visit_wf t st Hvisit) as [H1 H2].
  split.
  - apply NoDup_alt. intros i j v Hi Hj.
    rewrite list_lookup_fmap in Hi, Hj.
    destruct (m_entryps st !! i) as [ei|] eqn:Hei; [|done].
    destruct (m_entryps st !! j) as [ej|] eqn:Hej; [|done].
    simpl in Hi, Hj. injection Hi as Hi. injection Hj as Hj.
    apply H2 in Hei, Hej. congruence.
  - intros v p. split; [apply H1|].
    intros (e & He & <-). by apply H2.
Qed.

Lemma one_entry_per_declaration_witness :
  NoDup (m_varp <$> [decl_entry Examples.x8 true]).
Proof.
  refine (proj1 (one_entry_per_declaration Examples.covered_x8
                  (single Examples.x8 (decl_entry Examples.x8 true)) _)).
  apply (visit_single _ Examples.x8 (decl_entry Examples.x8 false) _
           (ADecl Examples.x8) []);
    [reflexivity | repeat constructor | reflexivity | reflexivity].
Defined.

(** ** Which warnings a signal can get *)

(** X8: a plain reference the traversal visits settles its side for good.
    After a read of the whole signal every warning on it has code UNDRIVEN;
    after an assignment to the whole signal every warning on it has code
    UNUSED. *)
Theorem whole_reference_settles_side (t : AstNode) (v : AstVar) (lvalue : bool)
    (u u' : gmap AstVar nat) (ds : list Diag) :
  visited t (VarRef v lvalue) →
  undrivenAll u t = Some (u', ds) →
  ∀ d, In d ds → nodep d = v → code d = other_side lvalue.
Proof.
  intros Href (st & Hvisit & -> & ->)%undrivenAll_inv d Hd Hv.
  rewrite visit_run in Hvisit.
  by apply (run_reference_side (accesses t) v lvalue st d (visited_VarRef _ _ _ Href)).
Qed.

Lemma whole_reference_settles_side_witness :
  code Samples.x8_bits_undriven = other_side false.
Proof.
  apply (whole_reference_settles_side (Examples.low_nibble_driven Examples.x8)
           Examples.x8 false ∅ {[ Examples.x8 := 0%nat ]}
           [Samples.x8_bits_undriven]).
  - eapply visited_below; [right; right; left; reflexivity|].
    eapply visited_below; [left; reflexivity | constructor].
  - exact run_low_nibble_x8.
  - left. reflexivity.
  - reflexivity.
Defined.

(** X9: a select that does not take the precise rule -- its index is no
    constant, or a constant with unknown bits -- counts as a reference to
    the whole base signal: after such a read every warning on the signal
    has code UNDRIVEN, after such an assignment code UNUSED. *)
Theorem imprecise_select_is_whole_reference (t : AstNode) (w : Z) (v : AstVar)
    (lvalue : bool) (lsbp widthp : AstNode)
    (u u' : gmap AstVar nat) (ds : list Diag) :
  visited t (Sel w (VarRef v lvalue) lsbp widthp) →
  precise (VarRef v lvalue) lsbp = false →
  undrivenAll u t = Some (u', ds) →
  ∀ d, In d ds → nodep d = v → code d = other_side lvalue.
Proof.
  intros Hsel Himp (st & Hvisit & -> & ->)%undrivenAll_inv d Hd Hv.
  rewrite visit_run in Hvisit.
  apply (run_reference_side (accesses t) v lvalue st d); try done.
  apply visited_VarRef. eapply visited_trans; [exact Hsel|].
  eapply visited_below; [|constructor].
  rewrite iterated_Sel by done. by left.
Qed.

Lemma imprecise_select_is_whole_reference_witness :
  code Samples.x8_undriven = other_side false.
Proof.
  apply (imprecise_select_is_whole_reference Samples.read_x8_at_x 1 Examples.x8
           false (Const (mkNum true 0)) (Examples.const 1) ∅
           {[ Examples.x8 := 0%nat ]} [Samples.x8_undriven]).
  - eapply visited_below; [right; left; reflexivity|].
    eapply visited_below; [left; reflexivity | constructor].
  - reflexivity.
  - exact run_read_x8_at_x.
  - left. reflexivity.
  - reflexivity.
Defined.

(** X10: what the declaration says counts like a whole reference.  A
    visited declaration that is an input or public (read-write) gets no
    UNDRIVEN warning; one that is an output or public in any way gets no
    UNUSED warning; one that is both gets no warning at all. *)
Theorem port_declaration_settles_side (t : AstNode) (v : AstVar) (cs : list AstNode)
    (u u' : gmap AstVar nat) (ds : list Diag) :
  visited t (Var v cs) →
  undrivenAll u t = Some (u', ds) →
  (isInput v || isSigPublic v || isSigUserRWPublic v = true →
   ∀ d, In d ds → nodep d = v → code d = UNUSED) ∧
  (isOutput v || isSigPublic v || isSigUserRWPublic v || isSigUserRdPublic v = true →
   ∀ d, In d ds → nodep d = v → code d = UNDRIVEN) ∧
  (isSigPublic v || isSigUserRWPublic v || isInput v && isOutput v = true →
   warnings_on v ds = []).
Proof.
  intros Hdecl (st & Hvisit & -> & ->)%undrivenAll_inv.
  rewrite visit_run in Hvisit.
  destruct (run_wf _ init st wf_init Hvisit) as [Hwf _].
  destruct (run_In _ _ init st wf_init (visited_Var _ _ _ Hdecl) Hvisit)
    as (p & e & e0 & e1 & Hp & He & Hm & Hle).
  simpl in Hp, Hm. injection Hm as <-.
  destruct Hle as (_ & Hu & Hd & _).
  pose proof (warnings_on_reportAll st v p e Hwf Hp He) as Hw.
  assert (ext_driven v = true → m_drivenWhole e = true) as Hdriven.
  { intros Hx. apply Hd. rewrite Hx. by destruct (ext_used v). }
  assert (ext_used v = true → m_usedWhole e = true) as Hused.
  { intros Hx. apply Hu. by rewrite Hx. }
  fold (ext_driven v). fold (ext_used v). split_and!.
  - intros Hx d Hin Hv. apply (driven_whole_report e); [auto|].
    rewrite <- Hw. by apply In_warnings_on.
  - intros Hx d Hin Hv. apply (report_side e false); [by apply Hused|].
    rewrite <- Hw. by apply In_warnings_on.
  - intros Hx. rewrite Hw.
    assert (ext_driven v = true ∧ ext_used v = true) as [Hxd Hxu].
    { unfold ext_driven, ext_used.
      destruct (isSigPublic v), (isSigUserRWPublic v), (isInput v), (isOutput v);
        done. }
    destruct (reportViolations e).2 as [|d ds'] eqn:Hds; [done|].
    pose proof (driven_whole_report e d (Hdriven Hxd)) as Hc1.
    pose proof (report_side e false d (Hused Hxu)) as Hc2.
    rewrite Hds in Hc1, Hc2. specialize (Hc1 (or_introl eq_refl)).
    specialize (Hc2 (or_introl eq_refl)). simpl in Hc2. congruence.
Qed.

Lemma port_declaration_settles_side_witness :
  code Samples.i8_unused = UNUSED.
Proof.
  refine (proj1 (port_declaration_settles_side Examples.covered_i8 Examples.i8 []
                   ∅ {[ Examples.i8 := 0%nat ]} [Samples.i8_unused]
                   _ run_covered_i8) eq_refl Samples.i8_unused _ eq_refl).
  - eapply visited_below; [left; reflexivity | constructor].
  - left. reflexivity.
Defined.

(** X11: parameters and generate variables are never reported. *)
Theorem parameters_are_not_reported (t : AstNode) (v : AstVar)
    (u u' : gmap AstVar nat) (ds : list Diag) :
  isParam v || isGenVar v = true →
  undrivenAll u t = Some (u', ds) →
  warnings_on v ds = [].
Proof.
  intros Hskip (st & Hvisit & -> & ->)%undrivenAll_inv.
  pose proof (visit_wf t st Hvisit) as Hwf.
  destruct (warnings_on_cases st v Hwf) as [H | (p & e & _ & _ & Hv & ->)]; [done|].
  apply report_skipped. by rewrite Hv.
Qed.

Lemma parameters_are_not_reported_witness :
  warnings_on Samples.p8 [] = [].
Proof.
  apply (parameters_are_not_reported Samples.only_p8 Samples.p8 ∅
           {[ Samples.p8 := 0%nat ]}).
  - reflexivity.
  - exact run_only_p8.
Defined.

(** X12: a signal gets at most two warnings, at most one of each code,
    and the UNUSED one comes first. *)
Theorem at_most_one_warning_per_side (t : AstNode) (v : AstVar)
    (u u' : gmap AstVar nat) (ds : list Diag) :
  undrivenAll u t = Some (u', ds) →
  code <$> warnings_on v ds ∈ [ []; [UNUSED]; [UNDRIVEN]; [UNUSED; UNDRIVEN] ].
Proof.
  intros (st & Hvisit & -> & ->)%undrivenAll_inv.
  pose proof (visit_wf t st Hvisit) as Hwf.
  destruct (warnings_on_cases st v Hwf) as [-> | (p & e & _ & _ & _ & ->)].
  - by left.
  - apply report_codes.
Qed.

Lemma at_most_one_warning_per_side_witness :
  code <$> warnings_on Examples.x8 [Samples.x8_bits_undriven]
    ∈ [ []; [UNUSED]; [UNDRIVEN]; [UNUSED; UNDRIVEN] ].
Proof.
  apply (at_most_one_warning_per_side (Examples.low_nibble_driven Examples.x8)
           Examples.x8 ∅ {[ Examples.x8 := 0%nat ]}).
  exact run_low_nibble_x8.
Defined.

(** X14: warnings are issued on signals the traversal has met only: at
    their declaration, at a plain reference, or as the base of a precise
    select.  A signal that occurs below coverage and trace nodes only, or
    not at all, is not reported. *)
Theorem warnings_on_met_signals_only (t : AstNode)
    (u u' : gmap AstVar nat) (ds : list Diag) (d : Diag) :
  undrivenAll u t = Some (u', ds) →
  In d ds → met t (nodep d).
Proof.
  intros (st & Hvisit & -> & ->)%undrivenAll_inv Hd.
  apply in_flat_map in Hd as (e & He & Hd).
  apply reportViolations_nodep in Hd as ->.
  apply list_elem_of_In, list_elem_of_lookup in He as [p Hp].
  rewrite visit_run in Hvisit.
  destruct (run_entry_origin _ init st p e wf_init Hvisit Hp)
    as [[e0 H0] | (a & Ha & <-)]; [done|].
  by apply origin_met, accesses_origin.
Qed.

Lemma warnings_on_met_signals_only_witness :
  met Examples.covered_i8 (nodep Samples.i8_unused).
Proof.
  apply (warnings_on_met_signals_only Examples.covered_i8 ∅
           {[ Examples.i8 := 0%nat ]} [Samples.i8_unused] _ run_covered_i8).
  left. reflexivity.
Defined.

(** ** No undefined behaviour on trees within range *)

Lemma method_ok (W : nat) (a : Access) (e : UndrivenVarEntry) :
  entry_ok W e → access_ok a →
  ∃ e', method a e = Some e' ∧ entry_ok W e' ∧ m_varp e' = m_varp e.
Proof.
  intros Hok [_ Ha]. destruct a as [v|v lv|v lv lsb w]; simpl.
  - eexists. split; [done|]. by destruct (ext_driven v), (ext_used v).
  - eexists. split; [done|]. by destruct lv.
  - destruct Ha as (Hlsb & Hw & Hhi). destruct lv.
    + destruct (markBits_spec FLAG_DRIVEN W (or_intror eq_refl) lsb (Z.to_nat w) 0 e)
        as (e' & He' & Hok' & Hv & _); [done | lia | lia |]. eauto.
    + destruct (markBits_spec FLAG_USED W (or_introl eq_refl) lsb (Z.to_nat w) 0 e)
        as (e' & He' & Hok' & Hv & _); [done | lia | lia |]. eauto.
Qed.

Lemma new_in_range (v : AstVar) :
  0 <= width v < 2 ^ 30 →
  ∃ e, new v = Some e ∧ entry_ok (Z.to_nat (width v)) e.
Proof.
  intros Hw. assert (is_Some (new v)) as [e He].
  { unfold new. rewrite mul_small by (unfold FLAGS_PER_BIT; lia).
    case_match eqn:Hneg; [|eauto]. unfold FLAGS_PER_BIT in Hneg. lia. }
  exists e. split; [done|]. by apply new_entry_ok.
Qed.

Lemma entries_ok_init : entries_ok init.
Proof. intros p e Hp. simpl in Hp. by rewrite lookup_nil in Hp. Qed.

Lemma access_progress (a : Access) (st : UndrivenVisitor) :
  wf st → entries_ok st → access_ok a →
  ∃ st', access a st = Some st' ∧ entries_ok st'.
Proof.
  intros Hwf Hok Ha.
  assert (∃ st', access a st = Some st') as [st' Hacc].
  { rewrite access_getEntryp by eauto using wf_live. unfold getEntryp.
    destruct (user1p st !! var_of a) as [p|] eqn:Hp; simpl.
    - destruct Hwf as [H1 _]. destruct (H1 _ _ Hp) as (e & He & Hv).
      destruct (method_ok _ a e (Hok p e He) Ha) as (e' & Hm & _).
      unfold call. rewrite He. simpl. rewrite Hm. simpl. eauto.
    - destruct (new_in_range (var_of a) (proj1 Ha)) as (e & -> & Hoke). simpl.
      destruct (method_ok _ a e Hoke Ha) as (e' & Hm & _).
      unfold call. simpl. rewrite lookup_app_r, Nat.sub_diag by done. simpl.
      rewrite Hm. simpl. eauto. }
  exists st'. split; [done|].
  destruct (access_lookup a st st' Hwf Hacc)
    as (p & e & e' & Hcase & Hv & Hm & Hu & He & _ & _ & Hfe').
  assert (entry_ok (Z.to_nat (width (m_varp e))) e) as Hoke.
  { destruct Hcase as [[_ Hpe] | (_ & _ & Hnew)]; [by apply (Hok p)|].
    rewrite Hv. apply new_entry_ok; [apply Ha | done]. }
  destruct (method_ok _ a e Hoke Ha) as (e'' & Hm' & Hok' & Hv').
  assert (e'' = e') as -> by congruence.
  intros q x Hx. destruct (decide (q = p)) as [-> | Hne].
  - assert (x = e') as -> by congruence. by rewrite Hv'.
  - apply (Hok q). by apply Hfe'.
Qed.

Lemma run_progress (l : list Access) :
  Forall access_ok l →
  ∀ st, wf st → entries_ok st → ∃ st', run l st = Some st' ∧ entries_ok st'.
Proof.
  induction 1 as [|a l Ha _ IH]; intros st Hwf Hok; simpl.
  - eauto.
  - destruct (access_progress a st Hwf Hok Ha) as (st1 & Hacc & Hok1).
    change (match a with
            | ADecl v => visitVar v st
            | AWhole v lvalue => visitVarRef v lvalue st
            | ABits v lvalue lsb w => visitSelConst v lvalue lsb w st
            end) with (access a st).
    rewrite Hacc. simpl. apply IH; [by eapply access_wf | done].
Qed.

Lemma safe_tree_accesses (t : AstNode) :
  safe_tree t → Forall access_ok (accesses t).
Proof.
  intros (Hdecl & Href & Hsel). apply List.Forall_forall. intros a Ha.
  apply accesses_origin in Ha.
  destruct a as [v|v lv|v lv lsb w]; simpl in Ha.
  - destruct Ha as [cs Hv]. split; [by apply (Hdecl v cs) | done].
  - split; [by apply (Href v lv) | done].
  - destruct Ha as (num & wd & Hv & Hfour & ->).
    destruct (Hsel w v lv num wd Hv Hfour) as (Hw & Hlo & Hpos & Hhi).
    split; [done|]. simpl. rewrite wrap_small by lia. lia.
Qed.

(** Inversion of [visited] on a tree that is written out. *)
Ltac visited_inv :=
  repeat match goal with
    | H : False |- _ => destruct H
    | H : In _ [] |- _ => destruct H
    | H : In _ (_ :: _) |- _ => destruct H as [H | H]
    | H : _ ∨ _ |- _ => destruct H as [H | H]
    | H : _ = ?c |- _ => is_var c; subst c
    | H : visited ?t _ |- _ =>
        tryif is_var t then fail
        else (inversion H; clear H; subst; simpl iterated in * )
    end.

(** X13: on a tree whose visited declarations and references are to
    signals of fewer than [2^30] bits and whose precise selects start at
    a constant from 0 upwards and end below bit [2^30], the pass runs to
    its end: no flag is written outside a vector, no constructor fails,
    no dangling entry is used. *)
Theorem safe_tree_runs (t : AstNode) (u : gmap AstVar nat) :
  safe_tree t → ∃ u' ds, undrivenAll u t = Some (u', ds).
Proof.
  intros Hsafe%safe_tree_accesses.
  destruct (run_progress _ Hsafe init wf_init entries_ok_init) as (st & Hrun & _).
  exists (user1p st), (reportAll (m_entryps st)).
  by rewrite undrivenAll_visit, visit_run, Hrun.
Qed.

Lemma safe_low_nibble_x8 : safe_tree (Examples.low_nibble_driven Examples.x8).
Proof.
  unfold Examples.low_nibble_driven. split_and!.
  - intros v cs H. visited_inv; try discriminate. cbn. lia.
  - intros v lv H. visited_inv; try discriminate; cbn; lia.
  - intros w v lv num wd H Hfour. visited_inv; try discriminate. cbn. lia.
Qed.

Lemma safe_tree_runs_witness :
  ∃ u' ds, undrivenAll ∅ (Examples.low_nibble_driven Examples.x8) = Some (u', ds).
Proof. apply safe_tree_runs. exact safe_low_nibble_x8. Defined.

(** ** Bit flags that cover the signal *)

Lemma all_any_used (e : UndrivenVarEntry) :
  allUsed e = true → anyUsed e = false → nbits e = 0%nat.
Proof.
  unfold allUsed, anyUsed. destruct (nbits e) as [|n]; [done|].
  cbn [seq forallb existsb]. intros [H0 _]%andb_true_iff.
  rewrite H0. cbn [orb]. by rewrite orb_true_r.
Qed.

Lemma all_any_driven (e : UndrivenVarEntry) :
  allDriven e = true → anyDriven e = false → nbits e = 0%nat.
Proof.
  unfold allDriven, anyDriven. destruct (nbits e) as [|n]; [done|].
  cbn [seq forallb existsb]. intros [H0 _]%andb_true_iff.
  rewrite H0. cbn [orb]. by rewrite orb_true_r.
Qed.

Lemma nbits_0_all (e : UndrivenVarEntry) :
  nbits e = 0%nat → allUsed e = true ∧ allDriven e = true.
Proof. unfold allUsed, allDriven. by intros ->. Qed.

(** The decision table, read on the promoted flags. *)
Lemma promoted_side (e : UndrivenVarEntry) (lvalue : bool) (d : Diag) :
  (if lvalue then m_drivenWhole (promote e) else m_usedWhole (promote e)) = true →
  In d (reportViolations e).2 → code d = other_side lvalue.
Proof.
  intros Hside. rewrite reportViolations_eq.
  destruct (negb (isParam (m_varp e)) && negb (isGenVar (m_varp e))); [|done].
  simpl. unfold testResults.
  destruct (m_usedWhole (promote e)) eqn:HU, (m_drivenWhole (promote e)) eqn:HD;
    destruct lvalue; try done; simpl.
  - destruct (anyUsed e) eqn:HaU, (anyDriven e) eqn:HaD; simpl;
      try (intros Hin; repeat (destruct Hin as [<- | Hin]; [reflexivity|]); done).
  - destruct (anyUsed e) eqn:HaU, (anyDriven e) eqn:HaD; simpl;
      try (intros Hin; repeat (destruct Hin as [<- | Hin]; [reflexivity|]); done).
    exfalso. rewrite promote_eq in HU, HD. simpl in HU, HD.
    assert (m_drivenWhole e = false) as Hd0.
    { unfold anyDriven in HaD. by destruct (m_drivenWhole e). }
    rewrite Hd0, orb_false_r in HD.
    apply all_any_driven in HD; [|done]. apply nbits_0_all in HD as [HallU _].
    by rewrite HallU in HU.
Qed.

(** X15: a constant select from bit 0 over the whole width counts like a
    reference to the whole signal.  When it is a read, the promotion
    turns the whole-used flag on and every warning on the entry has code
    UNDRIVEN; when it is an assignment, every warning has code UNUSED. *)
Theorem full_select_counts_as_whole (W : nat) (v : AstVar) (lvalue : bool) (w : Z)
    (e e' : UndrivenVarEntry) :
  entry_ok W e →
  Z.of_nat W <= w <= 2 ^ 30 →
  method (ABits v lvalue 0 w) e = Some e' →
  (if lvalue then m_drivenWhole (promote e') else m_usedWhole (promote e')) = true ∧
  ∀ d, In d (reportViolations e').2 → code d = other_side lvalue.
Proof.
  intros Hok Hw Hm.
  assert ((if lvalue then m_drivenWhole (promote e') else m_usedWhole (promote e'))
          = true) as Hside; [|split; [done | intros d; by apply promoted_side]].
  simpl in Hm. destruct lvalue.
  - destruct (markBits_spec FLAG_DRIVEN W (or_intror eq_refl) 0 (Z.to_nat w) 0 e)
      as (e'' & He'' & [Hlen _] & _ & _ & _ & Hf); [done | lia | lia |].
    unfold drivenBit in Hm. assert (e'' = e') as -> by congruence.
    apply promote_all_driven. intros b Hb. unfold drivenFlag. rewrite Hf.
    apply orb_true_iff. right. unfold marked. apply bool_decide_eq_true.
    unfold nbits in Hb. rewrite Hlen in Hb.
    rewrite Nat.mul_comm, Nat.div_mul in Hb by done.
    unfold FLAGS_PER_BIT, FLAG_DRIVEN. Z.div_mod_to_equations. lia.
  - destruct (markBits_spec FLAG_USED W (or_introl eq_refl) 0 (Z.to_nat w) 0 e)
      as (e'' & He'' & [Hlen _] & _ & _ & _ & Hf); [done | lia | lia |].
    unfold usedBit in Hm. assert (e'' = e') as -> by congruence.
    apply promote_all_used. intros b Hb. unfold usedFlag. rewrite Hf.
    apply orb_true_iff. right. unfold marked. apply bool_decide_eq_true.
    unfold nbits in Hb. rewrite Hlen in Hb.
    rewrite Nat.mul_comm, Nat.div_mul in Hb by done.
    unfold FLAGS_PER_BIT, FLAG_USED. Z.div_mod_to_equations. lia.
Qed.

Lemma full_select_counts_as_whole_witness :
  m_usedWhole (promote (mkEntry Examples.x8 false false
                          [true; false; true; false; true; false; true; false;
                           true; false; true; false; true; false; true; false]))
  = true.
Proof.
  refine (proj1 (full_select_counts_as_whole 8 Examples.x8 false 8
                   Examples.x8_fresh _ _ _ _)).
  - split; [reflexivity | cbn; lia].
  - cbn. lia.
  - reflexivity.
Defined.

(** ** The order of the entries *)

Lemma first_met_ext (s1 s2 l : list AstVar) :
  (∀ x, x ∈ s1 ↔ x ∈ s2) → first_met s1 l = first_met s2 l.
Proof.
  revert s1 s2. induction l as [|v l IH]; intros s1 s2 Hs; simpl; [done|].
  destruct (decide (v ∈ s1)) as [H1 | H1], (decide (v ∈ s2)) as [H2 | H2];
    try (by apply Hs in H1); try (by apply Hs in H2).
  - by apply IH.
  - f_equal. apply IH. intros x. rewrite !elem_of_cons. by rewrite Hs.
Qed.

Lemma wf_var_tracked (st : UndrivenVisitor) (v : AstVar) :
  wf st → v ∈ m_varp <$> m_entryps st ↔ is_Some (user1p st !! v).
Proof.
  intros [H1 H2]. rewrite list_elem_of_fmap. split.
  - intros (e & -> & [p Hp]%list_elem_of_lookup). rewrite (H2 p e Hp). eauto.
  - intros [p Hp]. destruct (H1 v p Hp) as (e & He & Hv).
    exists e. split; [done|]. apply list_elem_of_lookup. eauto.
Qed.

Lemma run_first_met (l : list Access) :
  ∀ st0 st, wf st0 → run l st0 = Some st →
    m_varp <$> m_entryps st =
    ((m_varp <$> m_entryps st0) ++
     first_met (m_varp <$> m_entryps st0) (var_of <$> l))%list.
Proof.
  induction l as [|a l IH]; intros st0 st Hwf0; simpl.
  - intros [= <-]. by rewrite app_nil_r.
  - destruct (access a st0) as [st1|] eqn:Hacc; simpl; [|done].
    intros Hrun. pose proof (access_wf _ _ _ Hwf0 Hacc) as Hwf1.
    rewrite (IH st1 st Hwf1 Hrun).
    destruct (access_spec a st0 st1 Hwf0 Hacc)
      as (p & e & e' & Hcase & Hv & Hm & Hu & He).
    apply method_le in Hm as [Hv' _].
    pose proof (wf_var_tracked st0 (var_of a) Hwf0) as Htr.
    unfold with_entry in He.
    destruct (user1p st0 !! var_of a) as [q|] eqn:Hq.
    + destruct Hcase as [-> Hp].
      assert (m_varp <$> m_entryps st1 = m_varp <$> m_entryps st0) as ->.
      { rewrite He, list_fmap_insert. apply list_insert_id.
        rewrite list_lookup_fmap, Hp. simpl. congruence. }
      rewrite decide_True by (apply Htr; eauto). done.
    + destruct Hcase as [-> Hnew].
      assert (m_varp <$> m_entryps st1 =
              (m_varp <$> m_entryps st0) ++ [var_of a])%list as ->.
      { rewrite He. rewrite insert_app_r_alt, Nat.sub_diag by done. simpl.
        rewrite fmap_app. simpl. congruence. }
      rewrite decide_False; cycle 1.
      { intros Hin%Htr. by destruct Hin. }
      rewrite <- app_assoc. simpl. do 2 f_equal.
      apply first_met_ext. intros x.
      rewrite elem_of_app, !elem_of_cons, elem_of_nil. tauto.
Qed.

(** X16: the entries stand in the order in which the traversal first met
    their declarations, one entry for each declaration met; the warnings
    are those of the entries, in that order. *)
Theorem warnings_in_order_of_first_meeting (t : AstNode)
    (u u' : gmap AstVar nat) (ds : list Diag) :
  undrivenAll u t = Some (u', ds) →
  ∃ entries,
    m_varp <$> entries = first_met [] (var_of <$> accesses t) ∧
    ds = flat_map (λ e, (reportViolations e).2) entries.
Proof.
  intros (st & Hvisit & -> & ->)%undrivenAll_inv.
  exists (m_entryps st). split; [|done].
  rewrite visit_run in Hvisit.
  by rewrite (run_first_met _ init st wf_init Hvisit).
Qed.

Lemma warnings_in_order_of_first_meeting_witness :
  ∃ entries,
    m_varp <$> entries =
      first_met [] (var_of <$> accesses (Examples.low_nibble_driven Examples.x8)) ∧
    [Samples.x8_bits_undriven] = flat_map (λ e, (reportViolations e).2) entries.
Proof.
  apply (warnings_in_order_of_first_meeting _ ∅ {[ Examples.x8 := 0%nat ]}).
  exact run_low_nibble_x8.
Defined.

(** ** The flags are what the accesses set *)

Lemma method_effect (W : nat) (a : Access) (e e' : UndrivenVarEntry) :
  entry_ok W e → access_ok a → W = Z.to_nat (width (var_of a)) →
  method a e = Some e' →
  m_usedWhole e' = m_usedWhole e || used_by a ∧
  m_drivenWhole e' = m_drivenWhole e || driven_by a ∧
  ∀ j, flag_at e' j = flag_at e j || bit_by j a.
Proof.
  intros Hok [_ Ha] HW. destruct a as [v|v lv|v lv lsb w]; simpl.
  - intros [= <-].
    destruct (ext_driven v), (ext_used v); simpl;
      rewrite ?orb_true_r, ?orb_false_r; split_and!; try done;
      intros j; by rewrite orb_false_r.
  - intros [= <-]. destruct lv; simpl;
      rewrite ?orb_true_r, ?orb_false_r; split_and!; try done;
      intros j; by rewrite orb_false_r.
  - destruct Ha as (Hlsb & Hw & Hhi). simpl in HW. subst W.
    rewrite !orb_false_r. intros Hm. destruct lv.
    + destruct (markBits_spec FLAG_DRIVEN (Z.to_nat (width v)) (or_intror eq_refl)
                  lsb (Z.to_nat w) 0 e)
        as (e'' & He'' & _ & _ & Hu & Hd & Hf); [done | lia | lia |].
      unfold drivenBit in Hm. assert (e'' = e') as -> by congruence.
      split_and!; try done. intros j. rewrite Hf. do 2 f_equal; lia.
    + destruct (markBits_spec FLAG_USED (Z.to_nat (width v)) (or_introl eq_refl)
                  lsb (Z.to_nat w) 0 e)
        as (e'' & He'' & _ & _ & Hu & Hd & Hf); [done | lia | lia |].
      unfold usedBit in Hm. assert (e'' = e') as -> by congruence.
      split_and!; try done. intros j. rewrite Hf. do 2 f_equal; lia.
Qed.

Lemma entry_of_Some (st : UndrivenVisitor) (v : AstVar) (e : UndrivenVarEntry) :
  entry_of st v = Some e ↔ ∃ p, user1p st !! v = Some p ∧ m_entryps st !! p = Some e.
Proof.
  unfold entry_of. destruct (user1p st !! v) as [p|]; simpl.
  - split; [eauto|]. by intros (q & [= <-] & ?).
  - split; [done|]. by intros (q & ? & _).
Qed.

(** The entry of [v], before and after one access. *)
Lemma access_start (a : Access) (st st' : UndrivenVisitor) (v : AstVar) :
  wf st → entries_ok st → access_ok a → access a st = Some st' →
  if decide (var_of a = v)
  then ∃ e', entry_of st' v = Some e' ∧ method a (start st v) = Some e' ∧
             entry_ok (Z.to_nat (width v)) (start st v)
  else entry_of st' v = entry_of st v.
Proof.
  intros Hwf Hok Ha Hacc.
  destruct (access_lookup a st st' Hwf Hacc)
    as (p & e & e' & Hcase & Hv & Hm & Hu & He & Hfu & Hfe & Hfe').
  destruct (decide (var_of a = v)) as [<- | Hne].
  - exists e'. assert (start st (var_of a) = e) as ->.
    { unfold start, entry_of.
      destruct Hcase as [[-> Hpe] | (-> & _ & Hnew)]; simpl.
      - by rewrite Hpe.
      - symmetry. by apply new_decl_entry. }
    split_and!; [|done|].
    + apply entry_of_Some. eauto.
    + destruct Hcase as [[_ Hpe] | (_ & _ & Hnew)].
      * rewrite <- Hv. by apply (Hok p).
      * apply new_entry_ok; [apply Ha | done].
  - unfold entry_of. rewrite Hfu by done.
    destruct (user1p st !! v) as [q|] eqn:Hq; simpl; [|done].
    destruct Hwf as [H1 _]. destruct (H1 v q Hq) as (x & Hx & Hxv).
    assert (q ≠ p) as Hqp.
    { intros ->. destruct Hcase as [[_ Hpe] | (_ & -> & _)].
      - congruence.
      - apply lookup_lt_Some in Hx. lia. }
    rewrite Hx. by apply Hfe.
Qed.

Lemma run_flags (l : list Access) :
  Forall access_ok l →
  ∀ st0 st v e, wf st0 → entries_ok st0 → run l st0 = Some st →
    entry_of st v = Some e →
    m_usedWhole e = m_usedWhole (start st0 v) || some_on v used_by l ∧
    m_drivenWhole e = m_drivenWhole (start st0 v) || some_on v driven_by l ∧
    ∀ j, flag_at e j = flag_at (start st0 v) j || some_on v (bit_by j) l.
Proof.
  induction 1 as [|a l Ha _ IH]; intros st0 st v e Hwf0 Hok0; simpl.
  - intros [= <-] He. unfold start. rewrite He. simpl.
    rewrite !orb_false_r. split_and!; try done. intros j. by rewrite orb_false_r.
  - change (match a with
            | ADecl v => visitVar v st0
            | AWhole v lvalue => visitVarRef v lvalue st0
            | ABits v lvalue lsb w => visitSelConst v lvalue lsb w st0
            end) with (access a st0).
    destruct (access a st0) as [st1|] eqn:Hacc; simpl; [|done].
    intros Hrun He.
    pose proof (access_wf _ _ _ Hwf0 Hacc) as Hwf1.
    destruct (access_progress a st0 Hwf0 Hok0 Ha) as (st1' & Hacc' & Hok1).
    assert (st1' = st1) as -> by congruence.
    destruct (IH st1 st v e Hwf1 Hok1 Hrun He) as (HU & HD & HF).
    pose proof (access_start a st0 st1 v Hwf0 Hok0 Ha Hacc) as Hstep.
    destruct (decide (var_of a = v)) as [Heq | Hne].
    + destruct Hstep as (e1 & He1 & Hm & Hoks).
      destruct (method_effect _ a _ e1 Hoks Ha (f_equal _ (f_equal _ (eq_sym Heq))) Hm)
        as (HU1 & HD1 & HF1).
      assert (start st1 v = e1) as Hs1 by (unfold start; by rewrite He1).
      rewrite Hs1 in HU, HD, HF.
      rewrite bool_decide_eq_true_2 by done. simpl.
      rewrite HU, HD, HU1, HD1, !orb_assoc. split_and!; try done.
      intros j. by rewrite HF, HF1, orb_assoc.
    + assert (start st1 v = start st0 v) as Hs1 by (unfold start; by rewrite Hstep).
      rewrite Hs1 in HU, HD, HF.
      rewrite bool_decide_eq_false_2 by done. simpl. done.
Qed.

Lemma flag_at_decl_entry (v : AstVar) (b : bool) (j : nat) :
  flag_at (decl_entry v b) j = false.
Proof.
  unfold flag_at, decl_entry; simpl.
  destruct (replicate _ false !! j) as [f|] eqn:Hj; [|done].
  by apply lookup_replicate in Hj as [-> _].
Qed.

Lemma final_flags (l : list Access) (st : UndrivenVisitor)
    (v : AstVar) (p : nat) (e : UndrivenVarEntry) :
  Forall access_ok l →
  run l init = Some st →
  user1p st !! v = Some p → m_entryps st !! p = Some e →
  m_usedWhole e = some_on v used_by l ∧
  m_drivenWhole e = some_on v driven_by l ∧
  ∀ j, flag_at e j = some_on v (bit_by j) l.
Proof.
  intros Hsafe Hrun Hp He.
  assert (entry_of st v = Some e) as Hentry by (apply entry_of_Some; eauto).
  destruct (run_flags _ Hsafe init st v e wf_init entries_ok_init Hrun Hentry)
    as (HU & HD & HF).
  assert (start init v = decl_entry v false) as Hs.
  { unfold start, entry_of. simpl. by rewrite lookup_empty. }
  rewrite Hs in HU, HD, HF. simpl in HU, HD.
  split_and!; try done.
  intros j. by rewrite HF, flag_at_decl_entry.
Qed.

(** X17: on a tree within range, the entry of a signal at the end of the
    traversal holds exactly what the accesses to that signal set: the
    whole-used flag iff the signal was read as a whole or its declaration
    is externally used, the whole-driven flag iff it was assigned as a
    whole or its declaration is externally driven, and the flag at a
    position iff a precise select of that kind covers the bit.  No flag
    comes from an access to another signal. *)
Theorem flags_are_what_accesses_set (t : AstNode) (st : UndrivenVisitor)
    (v : AstVar) (p : nat) (e : UndrivenVarEntry) :
  safe_tree t →
  visit t init = Some st →
  user1p st !! v = Some p → m_entryps st !! p = Some e →
  m_usedWhole e = some_on v used_by (accesses t) ∧
  m_drivenWhole e = some_on v driven_by (accesses t) ∧
  ∀ j, flag_at e j = some_on v (bit_by j) (accesses t).
Proof.
  intros Hsafe%safe_tree_accesses Hvisit. rewrite visit_run in Hvisit.
  by apply final_flags.
Qed.

Lemma visit_low_nibble_x8 :
  visit (Examples.low_nibble_driven Examples.x8) init =
    Some (single Examples.x8 (Examples.low4_driven Examples.x8)).
Proof.
  apply (visit_single _ Examples.x8 (decl_entry Examples.x8 false) _
           (ADecl Examples.x8)
           [ABits Examples.x8 true 0 4; AWhole Examples.x8 false]);
    [reflexivity | repeat constructor | reflexivity | reflexivity].
Qed.

Lemma flags_are_what_accesses_set_witness :
  m_usedWhole (Examples.low4_driven Examples.x8) =
    some_on Examples.x8 used_by
      (accesses (Examples.low_nibble_driven Examples.x8)).
Proof.
  refine (proj1 (flags_are_what_accesses_set
                   (Examples.low_nibble_driven Examples.x8)
                   (single Examples.x8 (Examples.low4_driven Examples.x8))
                   Examples.x8 0 (Examples.low4_driven Examples.x8)
                   safe_low_nibble_x8 visit_low_nibble_x8 _ _)).
  - apply lookup_singleton_eq.
  - reflexivity.
Defined.

(** ** The order of the accesses does not matter *)

Lemma some_on_In (v : AstVar) (f : Access → bool) (l : list Access) :
  some_on v f l = true ↔ ∃ a, In a l ∧ var_of a = v ∧ f a = true.
Proof.
  unfold some_on. rewrite existsb_exists. split.
  - intros (a & Ha & [Hv%bool_decide_eq_true Hf]%andb_true_iff). eauto.
  - intros (a & Ha & Hv & Hf). exists a. split; [done|].
    by rewrite bool_decide_eq_true_2, Hf.
Qed.

Lemma some_on_Permutation (v : AstVar) (f : Access → bool) (l1 l2 : list Access) :
  l1 ≡ₚ l2 → some_on v f l1 = some_on v f l2.
Proof.
  intros Hperm. apply eq_true_iff_eq. rewrite !some_on_In.
  split; intros (a & Ha & H); exists a; (split; [|done]);
    apply list_elem_of_In; apply list_elem_of_In in Ha.
  - by rewrite <- Hperm.
  - by rewrite Hperm.
Qed.

Lemma flags_eq (l1 l2 : list bool) :
  length l1 = length l2 →
  (∀ j, default false (l1 !! j) = default false (l2 !! j)) → l1 = l2.
Proof.
  intros Hlen Hflags. apply list_eq. intros j.
  specialize (Hflags j).
  destruct (l1 !! j) as [b1|] eqn:H1, (l2 !! j) as [b2|] eqn:H2; simpl in *.
  - congruence.
  - apply lookup_lt_Some in H1. apply lookup_ge_None in H2. lia.
  - apply lookup_ge_None in H1. apply lookup_lt_Some in H2. lia.
  - done.
Qed.

Lemma run_tracked (l : list Access) (st : UndrivenVisitor) (v : AstVar) :
  run l init = Some st →
  is_Some (user1p st !! v) ↔ ∃ a, In a l ∧ var_of a = v.
Proof.
  intros Hrun. destruct (run_wf l init st wf_init Hrun) as [[H1 H2] _]. split.
  - intros [p Hp]. destruct (H1 v p Hp) as (e & He & <-).
    destruct (run_entry_origin l init st p e wf_init Hrun He)
      as [[e0 H0] | ?]; [done | done].
  - intros (a & Ha & <-).
    destruct (run_In l a init st wf_init Ha Hrun) as (p & _ & _ & _ & Hp & _).
    eauto.
Qed.

Lemma run_entries_ok (l : list Access) (st : UndrivenVisitor) :
  Forall access_ok l → run l init = Some st → entries_ok st.
Proof.
  intros Hok Hrun.
  destruct (run_progress l Hok init wf_init entries_ok_init) as (st' & Hrun' & Hok').
  assert (st' = st) as <- by congruence. done.
Qed.

(** X18: on trees within range, what is reported on a signal depends on
    which accesses the traversal makes, not on their order: two trees
    whose accesses are the same up to order get the same warnings on every
    signal. *)
Theorem order_of_accesses_is_irrelevant (t1 t2 : AstNode) (v : AstVar)
    (u1 u1' u2 u2' : gmap AstVar nat) (ds1 ds2 : list Diag) :
  safe_tree t1 → safe_tree t2 →
  accesses t1 ≡ₚ accesses t2 →
  undrivenAll u1 t1 = Some (u1', ds1) →
  undrivenAll u2 t2 = Some (u2', ds2) →
  warnings_on v ds1 = warnings_on v ds2.
Proof.
  intros Hsafe1 Hsafe2 Hperm
    (st1 & Hv1 & -> & ->)%undrivenAll_inv (st2 & Hv2 & -> & ->)%undrivenAll_inv.
  pose proof (visit_wf t1 st1 Hv1) as Hwf1.
  pose proof (visit_wf t2 st2 Hv2) as Hwf2.
  pose proof Hv1 as Hr1. pose proof Hv2 as Hr2. rewrite visit_run in Hr1, Hr2.
  pose proof (run_tracked _ st1 v Hr1) as Ht1.
  pose proof (run_tracked _ st2 v Hr2) as Ht2.
  destruct (user1p st1 !! v) as [p1|] eqn:Hp1.
  - destruct (proj1 Ht1 (mk_is_Some _ _ eq_refl)) as (a & Ha & Hva).
    destruct (proj2 Ht2) as [p2 Hp2].
    { exists a. split; [|done]. apply list_elem_of_In.
      rewrite <- Hperm. by apply list_elem_of_In. }
    destruct Hwf1 as [H11 H12]. destruct Hwf2 as [H21 H22].
    destruct (H11 v p1 Hp1) as (e1 & He1 & Hve1).
    destruct (H21 v p2 Hp2) as (e2 & He2 & Hve2).
    rewrite (warnings_on_reportAll st1 v p1 e1), (warnings_on_reportAll st2 v p2 e2)
      by done.
    destruct (final_flags _ st1 v p1 e1 (safe_tree_accesses t1 Hsafe1) Hr1 Hp1 He1)
      as (HU1 & HD1 & HF1).
    destruct (final_flags _ st2 v p2 e2 (safe_tree_accesses t2 Hsafe2) Hr2 Hp2 He2)
      as (HU2 & HD2 & HF2).
    pose proof (run_entries_ok _ st1 (safe_tree_accesses t1 Hsafe1) Hr1 p1 e1 He1)
      as [Hl1 _].
    pose proof (run_entries_ok _ st2 (safe_tree_accesses t2 Hsafe2) Hr2 p2 e2 He2)
      as [Hl2 _].
    assert (e1 = e2) as ->; [|done].
    destruct e1 as [v1 uw1 dw1 f1], e2 as [v2 uw2 dw2 f2]. simpl in *. subst.
    f_equal.
    + by apply some_on_Permutation.
    + by apply some_on_Permutation.
    + apply flags_eq; [congruence|]. intros j.
      specialize (HF1 j). specialize (HF2 j). unfold flag_at in HF1, HF2.
      simpl in HF1, HF2. rewrite HF1, HF2. by apply some_on_Permutation.
  - assert (user1p st2 !! v = None) as Hp2.
    { destruct (user1p st2 !! v) as [p2|] eqn:Hp2; [|done].
      destruct (proj1 Ht2 (mk_is_Some _ _ eq_refl)) as (a & Ha & Hva).
      destruct (proj2 Ht1) as [p1 Hp1']; [|done].
      exists a. split; [|done]. apply list_elem_of_In.
      rewrite Hperm. by apply list_elem_of_In. }
    by rewrite (warnings_on_absent st1), (warnings_on_absent st2).
Qed.

Lemma safe_low_nibble_swapped : safe_tree Samples.low_nibble_swapped.
Proof.
  unfold Samples.low_nibble_swapped. split_and!.
  - intros v cs H. visited_inv; try discriminate. cbn. lia.
  - intros v lv H. visited_inv; try discriminate; cbn; lia.
  - intros w v lv num wd H Hfour. visited_inv; try discriminate. cbn. lia.
Qed.

Lemma run_low_nibble_swapped :
  undrivenAll ∅ Samples.low_nibble_swapped =
    Some ({[ Examples.x8 := 0%nat ]}, [Samples.x8_bits_undriven]).
Proof.
  apply (undrivenAll_single ∅ _ Examples.x8 (decl_entry Examples.x8 false)
           (Examples.low4_driven Examples.x8) (ADecl Examples.x8)
           [AWhole Examples.x8 false; ABits Examples.x8 true 0 4]);
    [reflexivity | repeat constructor | reflexivity | reflexivity].
Qed.

Lemma order_of_accesses_is_irrelevant_witness :
  warnings_on Examples.x8 [Samples.x8_bits_undriven] =
  warnings_on Examples.x8 [Samples.x8_bits_undriven].
Proof.
  apply (order_of_accesses_is_irrelevant
           (Examples.low_nibble_driven Examples.x8) Samples.low_nibble_swapped
           Examples.x8 ∅ {[ Examples.x8 := 0%nat ]} ∅ {[ Examples.x8 := 0%nat ]}).
  - exact safe_low_nibble_x8.
  - exact safe_low_nibble_swapped.
  - change (accesses (Examples.low_nibble_driven Examples.x8))
      with [ADecl Examples.x8; ABits Examples.x8 true 0 4; AWhole Examples.x8 false].
    change (accesses Samples.low_nibble_swapped)
      with [ADecl Examples.x8; AWhole Examples.x8 false; ABits Examples.x8 true 0 4].
    apply perm_skip, perm_swap.
  - exact run_low_nibble_x8.
  - exact run_low_nibble_swapped.
Defined.

(** ** The bit-marking loops, at their bounds *)

Lemma usedBit_spec_witness :
  ∃ e', usedBit 6 5 Examples.x8_fresh = Some e' ∧ entry_ok 8 e'.
Proof.
  destruct (usedBit_spec 8 Examples.x8_fresh 6 5) as (e' & He' & Hok & _).
  - split; [reflexivity | cbn; lia].
  - lia.
  - lia.
  - cbn. lia.
  - by exists e'.
Defined.

Lemma drivenBit_spec_witness :
  ∃ e', drivenBit 6 5 Examples.x8_fresh = Some e' ∧ entry_ok 8 e'.
Proof.
  destruct (drivenBit_spec 8 Examples.x8_fresh 6 5) as (e' & He' & Hok & _).
  - split; [reflexivity | cbn; lia].
  - lia.
  - lia.
  - cbn. lia.
  - by exists e'.
Defined.

Lemma markBits_negative (flag bit : Z) (n : nat) (e : UndrivenVarEntry) :
  flag = FLAG_USED ∨ flag = FLAG_DRIVEN →
  Z.of_nat (length (m_flags e)) < 2 ^ 31 →
  - 2 ^ 30 <= bit < 0 →
  markBits flag bit (S n) 0 e = None.
Proof.
  intros Hflag Hlen Hbit. cbn [markBits]. unfold markBit, bitNumOk, flags_size.
  rewrite add_small by lia.
  rewrite mul_small by (unfold FLAGS_PER_BIT; lia).
  rewrite (wrap_small (Z.of_nat _)) by lia.
  rewrite add_small by (unfold FLAGS_PER_BIT, FLAG_USED, FLAG_DRIVEN in *; lia).
  assert (((bit + 0) * FLAGS_PER_BIT <? Z.of_nat (length (m_flags e))) = true) as ->.
  { apply Z.ltb_lt. unfold FLAGS_PER_BIT. lia. }
  unfold set_flag.
  assert ((0 <=? (bit + 0) * FLAGS_PER_BIT + flag) = false) as ->; [|done].
  apply Z.leb_gt. unfold FLAGS_PER_BIT, FLAG_USED, FLAG_DRIVEN in *. lia.
Qed.

(** X19: the lower bound is missing from the check.  For every start bit
    in [-2^30, 0) and every width of at least one, [usedBit] and
    [drivenBit] pass [bitNumOk] at the first iteration and write in front
    of the vector, which is undefined. *)
Theorem negative_start_bit_is_undefined (e : UndrivenVarEntry) (bit w : Z) :
  Z.of_nat (length (m_flags e)) < 2 ^ 31 →
  - 2 ^ 30 <= bit < 0 → 1 <= w →
  usedBit bit w e = None ∧ drivenBit bit w e = None.
Proof.
  intros Hlen Hbit Hw. unfold usedBit, drivenBit.
  destruct (Z.to_nat w) as [|n] eqn:Hn; [lia|].
  split; apply markBits_negative; auto.
Qed.

Lemma negative_start_bit_is_undefined_witness :
  usedBit (-3) 2 Examples.x8_fresh = None ∧
  drivenBit (-3) 2 Examples.x8_fresh = None.
Proof.
  apply negative_start_bit_is_undefined; [cbn; lia | lia | lia].
Defined.
